(** * AdaptiveCpp runtime utilities: [hipSYCL/runtime/util.hpp]

    A shallow embedding of [hipsycl::rt::static_array<Dim>], of the
    dimensionality conversions built on it ([embed_in_id3],
    [embed_in_range3], [extract_from_id3], [extract_from_range3]) and of the
    integer helpers [next_power_of_2], [power_of_2_ceil], [ceil_division]
    and [next_multiple_of], followed by the properties of the code.

    Conventions of the embedding.
    - [std::size_t] and [std::uint64_t] are 64-bit unsigned integers (LP64).
      A value is a [Z] in [[0, 2^64)]; every arithmetic result is reduced
      modulo [2^64], as C++ does for unsigned types.
    - Undefined behaviour (division or remainder by zero, an index outside
      the array) and template instantiations that the compiler rejects
      ([enable_if], [static_assert]) are the result [None]; everything else
      is [Some v].
    - [std::array<std::size_t, Dim>] is a [list Z]; [_data[i] = v] is
      stdpp's [<[i:=v]>], [_data[i]] is [!!]. *)

From Stdlib Require Import ZArith Lia Bool.
From stdpp Require Import base option list gmap.

Local Open Scope Z_scope.

(** ** 64-bit unsigned machine arithmetic *)

Module U64.

Definition bits : Z := 64.
Definition modulus : Z := 2 ^ bits.

(** The values a [std::uint64_t] can hold. *)
Definition in_range (z : Z) : Prop := 0 <= z < modulus.

Definition wrap (z : Z) : Z := z mod modulus.

Definition add (a b : Z) : Z := wrap (a + b).
Definition sub (a b : Z) : Z := wrap (a - b).
Definition mul (a b : Z) : Z := wrap (a * b).

(** [a / b] and [a % b]: undefined behaviour when [b] is zero. *)
Definition div (a b : Z) : option Z :=
  if b =? 0 then None else Some (a / b).
Definition rem (a b : Z) : option Z :=
  if b =? 0 then None else Some (a mod b).

(** [a >> n] for [0 <= n < 64]; no bit is shifted in from the left. *)
Definition shr (a n : Z) : Z := Z.shiftr a n.
(** [a | b]. *)
Definition or (a b : Z) : Z := Z.lor a b.

End U64.

(** ** Integer helpers (util.hpp, lines 208-238) *)

(** [a |= (a >> k)]. *)
Definition smear (a k : Z) : Z := U64.or a (U64.shr a k).

Definition next_power_of_2 (a : Z) : Z :=
  let a := smear a 1 in
  let a := smear a 2 in
  let a := smear a 4 in
  let a := smear a 8 in
  let a := smear a 16 in
  let a := smear a 32 in
  U64.add a 1.

Definition power_of_2_ceil (a : Z) : Z :=
  if a =? 0 then 0 else next_power_of_2 (U64.sub a 1).

Definition ceil_division (a b : Z) : option Z :=
  U64.div (U64.sub (U64.add a b) 1) b.

Definition next_multiple_of (a b : Z) : option Z :=
  q ← ceil_division a b; Some (U64.mul q b).

(** ** [static_array<Dim>] (util.hpp, lines 43-122) *)

(** [for (int i = 0; i < n; ++i) body], as [for_loop body 0 n]: the loop
    state is threaded through the iterations, and an iteration with
    undefined behaviour ends the run with [None]. *)
Fixpoint for_loop {St : Type} (body : nat -> St -> option St)
    (i n : nat) (s : St) : option St :=
  match n with
  | O => Some s
  | S n' => s' ← body i s; for_loop body (S i) n' s'
  end.

(** [_data[i]] as an rvalue and [_data[i] = v] on a [std::array]: neither
    is bounds-checked, an index past the end is undefined behaviour. *)
Definition array_read (d : list Z) (i : nat) : option Z := d !! i.

Definition array_write (d : list Z) (i : nat) (v : Z) : option (list Z) :=
  if decide (i < length d)%nat then Some (<[i:=v]> d) else None.

(** [std::array]'s [operator==]: element by element. *)
Fixpoint array_eqb (d1 d2 : list Z) : bool :=
  match d1, d2 with
  | [], [] => true
  | x :: d1', y :: d2' => (x =? y) && array_eqb d1' d2'
  | _, _ => false
  end.

Record static_array (Dim : nat) : Type := StaticArray { _data : list Z }.
Arguments StaticArray {Dim} _.
Arguments _data {Dim} _.

(** A value of the C++ type: [Dim] slots, each a [std::size_t]. *)
Definition wf {Dim : nat} (a : static_array Dim) : Prop :=
  length (_data a) = Dim /\ Forall U64.in_range (_data a).

(** The operator symbol the two operator macros are instantiated with. *)
Inductive binop : Type := Plus | Minus | Times | Divide | Modulo.

(** [x op y] on [std::size_t]. *)
Definition eval_binop (op : binop) (x y : Z) : option Z :=
  match op with
  | Plus => Some (U64.add x y)
  | Minus => Some (U64.sub x y)
  | Times => Some (U64.mul x y)
  | Divide => U64.div x y
  | Modulo => U64.rem x y
  end.

Section Indeterminate.

(** The content of storage that has not been written yet:
    [static_array() = default] leaves [_data] indeterminate. *)
Variable junk : nat -> Z.

Definition static_array_default (Dim : nat) : static_array Dim :=
  StaticArray (map junk (seq 0 Dim)).

(** [static_array(std::size_t dim0)]. *)
Definition static_array_fill (Dim : nat) (dim0 : Z)
    : option (static_array Dim) :=
  d ← for_loop (fun i d => array_write d i dim0) 0 Dim
        (_data (static_array_default Dim));
  Some (StaticArray d).

(** [HIPSYCL_RT_SARRAY_MAKE_OOPLACE_OP(op)]: [a op b]. *)
Definition ooplace_op (op : binop) {Dim : nat} (a b : static_array Dim)
    : option (static_array Dim) :=
  d ← for_loop (fun i result =>
                  x ← array_read (_data a) i;
                  y ← array_read (_data b) i;
                  v ← eval_binop op x y;
                  array_write result i v)
        0 Dim (_data (static_array_default Dim));
  Some (StaticArray d).

End Indeterminate.

(** [static_array(dim0, dim1)], enabled for [Dim == 2] only, and
    [static_array(dim0, dim1, dim2)], enabled for [Dim == 3] only. *)
Definition static_array_2 (dim0 dim1 : Z) : static_array 2 :=
  StaticArray [dim0; dim1].
Definition static_array_3 (dim0 dim1 dim2 : Z) : static_array 3 :=
  StaticArray [dim0; dim1; dim2].

(** [operator==] and [operator!=]. *)
Definition op_eq {Dim : nat} (a b : static_array Dim) : bool :=
  array_eqb (_data a) (_data b).
Definition op_ne {Dim : nat} (a b : static_array Dim) : bool :=
  negb (op_eq a b).

(** [operator[](int dim) const] and [get(int dim)]: [_data[dim]], with
    the [int] converted to the array's unsigned index type; a negative
    [dim] becomes an index past the end. *)
Definition op_index {Dim : nat} (a : static_array Dim) (dim : Z)
    : option Z :=
  if dim <? 0 then None else array_read (_data a) (Z.to_nat dim).
Definition get {Dim : nat} (a : static_array Dim) (dim : Z) : option Z :=
  if dim <? 0 then None else array_read (_data a) (Z.to_nat dim).

(** [size()]. *)
Definition size {Dim : nat} (a : static_array Dim) : option Z :=
  for_loop (fun i s => x ← array_read (_data a) i; Some (U64.mul s x))
    0 Dim 1.

(** *** Compound assignment, on objects in memory

    [a op= b] writes into [*this] while it reads [b], and [b] may be the
    very object [*this]. Objects live in a store, addressed by location;
    the operator takes the locations of [*this] and of [b]. *)
Definition loc : Type := nat.
Abbreviation store := (gmap loc (list Z)).

Definition load (st : store) (l : loc) (i : nat) : option Z :=
  d ← st !! l; array_read d i.

Definition store_at (st : store) (l : loc) (i : nat) (v : Z)
    : option store :=
  d ← st !! l; d' ← array_write d i v; Some (<[l:=d']> st).

(** [HIPSYCL_RT_SARRAY_MAKE_INPLACE_OP(op)]: [*this op= b]; the reference
    it returns is [this]. *)
Definition inplace_op (op : binop) (Dim : nat) (this b : loc) (st : store)
    : option store :=
  for_loop (fun i st =>
              x ← load st this i;
              y ← load st b i;
              v ← eval_binop op x y;
              store_at st this i v)
    0 Dim st.

(** ** Dimensionality conversion (util.hpp, lines 124-206) *)

Definition id (Dim : nat) : Type := static_array Dim.
Definition range (Dim : nat) : Type := static_array Dim.

(** [None] for a [Dim] that the [static_assert] rejects. *)
Definition embed_in_id3 {Dim : nat} : id Dim -> option (id 3) :=
  match Dim as d return id d -> option (id 3) with
  | 1%nat => fun idx => x0 ← op_index idx 0; Some (static_array_3 0 0 x0)
  | 2%nat => fun idx =>
      x0 ← op_index idx 0; x1 ← op_index idx 1;
      Some (static_array_3 0 x0 x1)
  | 3%nat => fun idx => Some idx
  | _ => fun _ => None
  end.

Definition embed_in_range3 {Dim : nat} : range Dim -> option (range 3) :=
  match Dim as d return range d -> option (range 3) with
  | 1%nat => fun r => x0 ← op_index r 0; Some (static_array_3 1 1 x0)
  | 2%nat => fun r =>
      x0 ← op_index r 0; x1 ← op_index r 1;
      Some (static_array_3 1 x0 x1)
  | 3%nat => fun r => Some r
  | _ => fun _ => None
  end.

(** [id<1>{idx[2]}] selects the one-argument constructor, hence the
    parameter for the indeterminate storage it starts from. *)
Definition extract_from_id3 (junk : nat -> Z) (Dim : nat) (idx : id 3)
    : option (id Dim) :=
  match Dim as d return option (id d) with
  | 1%nat => x2 ← op_index idx 2; static_array_fill junk 1 x2
  | 2%nat =>
      x1 ← op_index idx 1; x2 ← op_index idx 2;
      Some (static_array_2 x1 x2)
  | 3%nat => Some idx
  | _ => None
  end.

Definition extract_from_range3 (junk : nat -> Z) (Dim : nat) (r : range 3)
    : option (range Dim) :=
  match Dim as d return option (range d) with
  | 1%nat => x2 ← op_index r 2; static_array_fill junk 1 x2
  | 2%nat =>
      x1 ← op_index r 1; x2 ← op_index r 2;
      Some (static_array_2 x1 x2)
  | 3%nat => Some r
  | _ => None
  end.

(** ** Vocabulary of the statements about the integer helpers *)

Definition is_pow2 (p : Z) : Prop := exists k, 0 <= k /\ p = 2 ^ k.

(** [p] is the smallest power of two strictly greater than [a]. *)
Definition least_pow2_gt (a p : Z) : Prop :=
  is_pow2 p /\ a < p /\ forall q, is_pow2 q -> a < q -> p <= q.

(** [p] is the smallest power of two greater than or equal to [a]. *)
Definition least_pow2_ge (a p : Z) : Prop :=
  is_pow2 p /\ a <= p /\ forall q, is_pow2 q -> a <= q -> p <= q.

(** [q] is the ceiling of the rational [a / b], for [0 < b]: the least
    integer [q] with [a <= q * b]. *)
Definition is_ceiling (a b q : Z) : Prop :=
  a <= q * b /\ forall q', a <= q' * b -> q <= q'.

(** [m] is the smallest multiple of [b] that is at least [a]. *)
Definition least_multiple_ge (a b m : Z) : Prop :=
  (exists k, m = k * b) /\ a <= m /\
  forall m', (exists k, m' = k * b) -> a <= m' -> m <= m'.

(** The value of [a] in [next_power_of_2] after its six [|=] lines. *)
Definition smeared (a : Z) : Z :=
  smear (smear (smear (smear (smear (smear a 1) 2) 4) 8) 16) 32.

(** [window a x k]: bit [i] of [x] is set exactly when some bit of [a] at a
    position in [[i, i + k)] is set. *)
Definition window (a x k : Z) : Prop :=
  forall i, 0 <= i ->
    Z.testbit x i = true <-> exists j, i <= j < i + k /\ Z.testbit a j = true.

(** The product of the components, in [Z], without wrap-around. *)
Definition product (d : list Z) : Z := foldr Z.mul 1 d.

(** [x op y] for each pair of components; [None] as soon as one of them is
    undefined. *)
Fixpoint pointwise (op : binop) (d1 d2 : list Z) : option (list Z) :=
  match d1, d2 with
  | x :: d1', y :: d2' =>
      v ← eval_binop op x y; vs ← pointwise op d1' d2'; Some (v :: vs)
  | _, _ => Some []
  end.

(** The dimensions the conversion functions are instantiated with. *)
Definition dim123 (Dim : nat) : Prop := Dim = 1%nat \/ Dim = 2%nat \/ Dim = 3%nat.

(** ** Generic conversion (util.hpp, lines 152-179) and mutable indexing *)

(** [a[dim] = v] through [std::size_t &operator[](int dim)]. *)
Definition op_index_assign {Dim : nat} (a : static_array Dim) (dim v : Z)
    : option (static_array Dim) :=
  if dim <? 0 then None
  else d ← array_write (_data a) (Z.to_nat dim) v; Some (StaticArray d).

(** What [make_static_array] uses of its argument type
    [CompatibleArray<Dim>]: the expression [a[i]] for an [int] [i], with
    its value converted to [std::size_t]; [None] where that type leaves
    [a[i]] undefined. *)
Class CompatibleArray (A : nat -> Type) : Type :=
  compat_index : forall {Dim : nat}, A Dim -> Z -> option Z.

#[export] Instance static_array_compatible : CompatibleArray static_array :=
  @op_index.

Definition make_static_array {A : nat -> Type} `{!CompatibleArray A}
    (junk : nat -> Z) {Dim : nat} (a : A Dim) : option (static_array Dim) :=
  for_loop (fun i d =>
              x ← compat_index a (Z.of_nat i);
              op_index_assign d (Z.of_nat i) x)
    0 Dim (static_array_default junk Dim).

Definition make_id {A : nat -> Type} `{!CompatibleArray A}
    (junk : nat -> Z) {Dim : nat} (v : A Dim) : option (id Dim) :=
  make_static_array junk v.

Definition make_range {A : nat -> Type} `{!CompatibleArray A}
    (junk : nat -> Z) {Dim : nat} (v : A Dim) : option (range Dim) :=
  make_static_array junk v.

(** The overloads of [embed_in_id3] and [embed_in_range3] for a
    [CompatibleId<Dim>]. *)
Definition embed_in_id3_compat {A : nat -> Type} `{!CompatibleArray A}
    (junk : nat -> Z) {Dim : nat} (idx : A Dim) : option (id 3) :=
  d ← make_static_array junk idx; embed_in_id3 d.

Definition embed_in_range3_compat {A : nat -> Type} `{!CompatibleArray A}
    (junk : nat -> Z) {Dim : nat} (idx : A Dim) : option (range 3) :=
  d ← make_static_array junk idx; embed_in_range3 d.

(** ** Vocabulary of the statements about vectors *)

(** Every component of [idx] is below the same component of [r]: the index
    lies inside the range. *)
Definition in_bounds {Dim : nat} (idx r : static_array Dim) : Prop :=
  Forall2 Z.lt (_data idx) (_data r).

(** [static_array<Dim>(s)], as a value. *)
Definition broadcast (Dim : nat) (s : Z) : static_array Dim :=
  StaticArray (replicate Dim s).

(** * Properties *)

(** ** Bit smearing *)

Lemma window_init a : window a a 1.
Proof.
  intros i Hi; split.
  - intros H; exists i; split; [lia | exact H].
  - intros (j & Hj & H). replace i with j by lia. exact H.
Qed.

Lemma window_smear a x k :
  0 <= k -> window a x k -> window a (smear x k) (2 * k).
Proof.
  intros Hk Hw i Hi. unfold smear, U64.or, U64.shr.
  rewrite Z.lor_spec, Z.shiftr_spec by lia.
  rewrite orb_true_iff, (Hw i Hi), (Hw (i + k)) by lia.
  split.
  - intros [(j & Hj & H) | (j & Hj & H)]; exists j; split; (lia || exact H).
  - intros (j & Hj & H).
    destruct (Z_lt_dec j (i + k)); [left | right];
      exists j; split; (lia || exact H).
Qed.

Lemma next_power_of_2_unfold a : next_power_of_2 a = U64.add (smeared a) 1.
Proof. reflexivity. Qed.

Lemma window_smeared a : window a (smeared a) 64.
Proof.
  unfold smeared.
  change 64 with (2 * (2 * (2 * (2 * (2 * (2 * 1)))))).
  repeat (apply window_smear; [lia |]).
  apply window_init.
Qed.

Lemma smeared_zero : smeared 0 = 0.
Proof. reflexivity. Qed.

Lemma smeared_ones a :
  0 < a < U64.modulus -> smeared a = Z.ones (Z.log2 a + 1).
Proof.
  intros [Hpos Hlt].
  assert (Hn : 0 <= Z.log2 a < 64).
  { split; [apply Z.log2_nonneg |].
    apply Z.log2_lt_pow2; [lia | exact Hlt]. }
  apply Z.bits_inj'. intros i Hi.
  rewrite Z.testbit_ones_nonneg by lia.
  destruct (Z.ltb_spec i (Z.log2 a + 1)) as [Hlo | Hhi].
  - apply (window_smeared a i Hi).
    exists (Z.log2 a); split; [lia |]. apply Z.bit_log2; lia.
  - destruct (Z.testbit (smeared a) i) eqn:E; [| reflexivity].
    apply (window_smeared a i Hi) in E. destruct E as (j & Hj & E).
    rewrite Z.bits_above_log2 in E by lia. discriminate.
Qed.

Lemma least_pow2_gt_log2 a : 0 < a -> least_pow2_gt a (2 ^ (Z.log2 a + 1)).
Proof.
  intros Hpos. pose proof (Z.log2_nonneg a) as Hn.
  pose proof (Z.log2_spec a Hpos) as [Hlo Hhi].
  split; [| split].
  - exists (Z.log2 a + 1); split; [lia | reflexivity].
  - replace (Z.log2 a + 1) with (Z.succ (Z.log2 a)) by lia. exact Hhi.
  - intros q (k & Hk & ->) Hq.
    apply Z.pow_le_mono_r; [lia |].
    assert (Z.log2 a < k); [| lia].
    apply (Z.pow_lt_mono_r_iff 2); lia.
Qed.

Lemma least_pow2_gt_zero : least_pow2_gt 0 1.
Proof.
  split; [| split].
  - exists 0; split; [lia | reflexivity].
  - lia.
  - intros q (k & Hk & ->) _.
    pose proof (Z.pow_pos_nonneg 2 k); lia.
Qed.

Lemma least_pow2_gt_unique a p q :
  least_pow2_gt a p -> least_pow2_gt a q -> p = q.
Proof.
  intros (Hp & Hap & Hpm) (Hq & Haq & Hqm).
  specialize (Hpm q Hq Haq). specialize (Hqm p Hp Hap). lia.
Qed.

(** ** [next_power_of_2] and [power_of_2_ceil] *)

Lemma modulus_eq : U64.modulus = 18446744073709551616.
Proof. reflexivity. Qed.

Lemma in_range_intro z : 0 <= z < 18446744073709551616 -> U64.in_range z.
Proof. intros H. unfold U64.in_range. rewrite modulus_eq. exact H. Qed.

Lemma in_range_elim z : U64.in_range z -> 0 <= z < 18446744073709551616.
Proof. intros H. unfold U64.in_range in H. rewrite modulus_eq in H. exact H. Qed.

(** Closes [U64.in_range z] goals that are linear arithmetic. *)
Ltac u64_range := apply in_range_intro; lia.

Lemma wrap_small z : U64.in_range z -> U64.wrap z = z.
Proof. intros H. apply Z.mod_small. exact H. Qed.

Lemma wrap_in_range z : U64.in_range (U64.wrap z).
Proof. apply Z.mod_pos_bound. rewrite modulus_eq. lia. Qed.

Lemma least_pow2_gt_exists a : 0 <= a -> exists p, least_pow2_gt a p.
Proof.
  intros Ha. destruct (Z.eq_dec a 0) as [-> | Hne].
  - exists 1. apply least_pow2_gt_zero.
  - exists (2 ^ (Z.log2 a + 1)). apply least_pow2_gt_log2. lia.
Qed.

Lemma next_power_of_2_pos a :
  0 < a < U64.modulus ->
  next_power_of_2 a = U64.wrap (2 ^ (Z.log2 a + 1)).
Proof.
  intros H. rewrite next_power_of_2_unfold, smeared_ones by exact H.
  unfold U64.add. f_equal. rewrite Z.ones_equiv. lia.
Qed.

Lemma next_power_of_2_least a p :
  U64.in_range a -> least_pow2_gt a p ->
  next_power_of_2 a = if p <? U64.modulus then p else 0.
Proof.
  intros [Ha0 Ha] Hp. destruct (Z.eq_dec a 0) as [-> | Hne].
  - rewrite (least_pow2_gt_unique _ _ _ Hp least_pow2_gt_zero). reflexivity.
  - assert (Hpos : 0 < a) by lia.
    rewrite (least_pow2_gt_unique _ _ _ Hp (least_pow2_gt_log2 a Hpos)).
    rewrite next_power_of_2_pos by lia.
    assert (Hn : 0 <= Z.log2 a < 64).
    { split; [apply Z.log2_nonneg |]. apply Z.log2_lt_pow2; [lia | exact Ha]. }
    destruct (Z.ltb_spec (2 ^ (Z.log2 a + 1)) U64.modulus) as [Hlt | Hge].
    + apply wrap_small. split; [apply Z.pow_nonneg; lia | exact Hlt].
    + assert (Z.log2 a + 1 = 64) as ->; [| reflexivity].
      destruct (Z.eq_dec (Z.log2 a + 1) 64) as [E | E]; [exact E | exfalso].
      assert (2 ^ (Z.log2 a + 1) < 2 ^ 64)
        by (apply Z.pow_lt_mono_r; lia).
      unfold U64.modulus, U64.bits in Hge. lia.
Qed.

Lemma least_pow2_gt_pred a p : least_pow2_gt (a - 1) p -> least_pow2_ge a p.
Proof.
  intros (Hp & Hlt & Hmin). split; [exact Hp | split; [lia |]].
  intros q Hq Haq. apply Hmin; [exact Hq | lia].
Qed.

Lemma is_pow2_63 : is_pow2 9223372036854775808.
Proof. exists 63; split; [lia | reflexivity]. Qed.

Lemma is_pow2_above_63 q :
  is_pow2 q -> 9223372036854775808 < q -> U64.modulus <= q.
Proof.
  intros (k & Hk & ->) Hq.
  assert (63 < k) by (apply (Z.pow_lt_mono_r_iff 2); [lia | lia | exact Hq]).
  change U64.modulus with (2 ^ 64). apply Z.pow_le_mono_r; lia.
Qed.

Lemma is_pow2_pos q : is_pow2 q -> 0 < q.
Proof. intros (k & Hk & ->). apply Z.pow_pos_nonneg; lia. Qed.

(** C5. For every 64-bit unsigned [a], with [p] the smallest power of two
    strictly greater than [a]: [next_power_of_2 a] is [p] when [p] fits in
    64 bits and [0] when it does not; [next_power_of_2 5 = 8] and
    [next_power_of_2 8 = 16]. *)
Theorem next_power_of_2_spec (a : Z) :
  U64.in_range a ->
  (exists p, least_pow2_gt a p /\
     (p < U64.modulus -> next_power_of_2 a = p) /\
     (U64.modulus <= p -> next_power_of_2 a = 0)) /\
  next_power_of_2 5 = 8 /\ next_power_of_2 8 = 16.
Proof.
  intros Ha. split; [| split; reflexivity].
  destruct (least_pow2_gt_exists a (proj1 Ha)) as [p Hp].
  exists p. split; [exact Hp |].
  rewrite (next_power_of_2_least a p Ha Hp).
  split; intros H; destruct (Z.ltb_spec p U64.modulus); (reflexivity || lia).
Qed.

Lemma next_power_of_2_spec_witness :
  U64.in_range 1000 /\
  ((exists p, least_pow2_gt 1000 p /\
      (p < U64.modulus -> next_power_of_2 1000 = p) /\
      (U64.modulus <= p -> next_power_of_2 1000 = 0)) /\
   next_power_of_2 5 = 8 /\ next_power_of_2 8 = 16).
Proof.
  assert (H : U64.in_range 1000) by u64_range.
  split; [exact H | exact (next_power_of_2_spec 1000 H)].
Defined.

(** C4, as the code has it. [power_of_2_ceil 0 = 0]; for every 64-bit
    unsigned [a >= 1] the result is [next_power_of_2 (a - 1)]; it is the
    smallest power of two greater than or equal to [a] when
    [1 <= a <= 2^63], and [0] when [2^63 < a], where that power of two does
    not fit in 64 bits. [power_of_2_ceil] maps [1], [5], [8] to [1], [8],
    [8]. *)
Theorem power_of_2_ceil_spec (a : Z) :
  U64.in_range a ->
  power_of_2_ceil 0 = 0 /\
  (1 <= a -> power_of_2_ceil a = next_power_of_2 (a - 1)) /\
  (1 <= a <= 9223372036854775808 -> least_pow2_ge a (power_of_2_ceil a)) /\
  (9223372036854775808 < a -> power_of_2_ceil a = 0) /\
  power_of_2_ceil 1 = 1 /\ power_of_2_ceil 5 = 8 /\ power_of_2_ceil 8 = 8.
Proof.
  intros Ha. pose proof Ha as [Ha0 Halt]. rewrite modulus_eq in Halt.
  assert (Hstep : 1 <= a -> power_of_2_ceil a = next_power_of_2 (a - 1)).
  { intros H1. unfold power_of_2_ceil.
    destruct (Z.eqb_spec a 0) as [? | _]; [lia |].
    unfold U64.sub. rewrite wrap_small; [reflexivity |].
    u64_range. }
  split; [reflexivity |]. split; [exact Hstep |].
  split; [| split; [| repeat split; reflexivity]].
  - intros [H1 H63]. rewrite Hstep by exact H1.
    destruct (least_pow2_gt_exists (a - 1)) as [p Hp]; [lia |].
    rewrite (next_power_of_2_least (a - 1) p);
      [| u64_range | exact Hp].
    assert (p <= 9223372036854775808)
      by (apply Hp; [apply is_pow2_63 | lia]).
    destruct (Z.ltb_spec p U64.modulus) as [_ | Hge];
      [| rewrite modulus_eq in Hge; lia].
    apply least_pow2_gt_pred. exact Hp.
  - intros H63. rewrite Hstep by lia.
    destruct (least_pow2_gt_exists (a - 1)) as [p Hp]; [lia |].
    rewrite (next_power_of_2_least (a - 1) p);
      [| u64_range | exact Hp].
    destruct Hp as (Hp & Hlt & _).
    pose proof (is_pow2_above_63 p Hp).
    destruct (Z.ltb_spec p U64.modulus); [lia | reflexivity].
Qed.

Lemma power_of_2_ceil_spec_witness :
  U64.in_range 1000 /\ least_pow2_ge 1000 (power_of_2_ceil 1000).
Proof.
  assert (H : U64.in_range 1000) by u64_range.
  split; [exact H |].
  apply (power_of_2_ceil_spec 1000 H). lia.
Defined.

(** C4, as stated, fails above [2^63]: there [power_of_2_ceil] returns [0],
    which is not a power of two and is smaller than its argument. *)
Lemma power_of_2_ceil_overflow_counterexample :
  U64.in_range 9223372036854775809 /\
  9223372036854775809 <> 0 /\
  power_of_2_ceil 9223372036854775809 = 0 /\
  ~ least_pow2_ge 9223372036854775809 (power_of_2_ceil 9223372036854775809).
Proof.
  split; [u64_range |].
  split; [lia |]. split; [reflexivity |].
  change (power_of_2_ceil 9223372036854775809) with 0.
  intros (_ & H & _). lia.
Qed.

(** ** [ceil_division] and [next_multiple_of] *)

(** The two wrapped steps of [a + b - 1] amount to one. *)
Lemma add_sub_1_wrap a b : U64.sub (U64.add a b) 1 = U64.wrap (a + b - 1).
Proof. unfold U64.sub, U64.add, U64.wrap. apply Zminus_mod_idemp_l. Qed.

Lemma ceil_division_eq a b :
  b <> 0 -> ceil_division a b = Some (U64.wrap (a + b - 1) / b).
Proof.
  intros Hb. unfold ceil_division, U64.div. rewrite add_sub_1_wrap.
  destruct (Z.eqb_spec b 0); [contradiction | reflexivity].
Qed.

Lemma Zdiv_is_ceiling a b : 0 < b -> is_ceiling a b ((a + b - 1) / b).
Proof.
  intros Hb.
  pose proof (Z.div_mod (a + b - 1) b ltac:(lia)) as Hdm.
  pose proof (Z.mod_pos_bound (a + b - 1) b Hb) as Hr.
  set (q := (a + b - 1) / b) in *. set (r := (a + b - 1) mod b) in *.
  split.
  - nia.
  - intros q' Hq'. destruct (Z_le_gt_dec q q') as [Hle | Hgt]; [exact Hle |].
    exfalso. assert (q' * b <= (q - 1) * b) by nia. nia.
Qed.

Lemma is_ceiling_unique a b q1 q2 :
  is_ceiling a b q1 -> is_ceiling a b q2 -> q1 = q2.
Proof.
  intros [H1 M1] [H2 M2]. specialize (M1 q2 H2). specialize (M2 q1 H1). lia.
Qed.

Lemma wrapped_quotient_zero a b :
  U64.in_range a -> U64.in_range b ->
  U64.modulus <= a + b - 1 -> U64.wrap (a + b - 1) / b = 0.
Proof.
  intros Ha Hb Hov. apply in_range_elim in Ha, Hb. rewrite modulus_eq in Hov.
  assert (Hw : U64.wrap (a + b - 1) = a + b - 1 - 18446744073709551616).
  { unfold U64.wrap. rewrite modulus_eq. symmetry.
    apply (Z.mod_unique _ _ 1); lia. }
  rewrite Hw. apply Z.div_small. lia.
Qed.

(** C6. [ceil_division] does not return the ceiling when [a + b - 1]
    wraps, although the ceiling itself fits in 64 bits. At [a = 2^64 - 1],
    [b = 2] the sum [a + b] wraps to [1], [1 - 1] is [0] and [0 / 2] is [0],
    while the ceiling of [a / b] is [2^63]; at [a = b = 2^63 + 1] the
    result is [0] as well, while the ceiling is [1]. *)
Theorem ceil_division_overflow_bug :
  (U64.in_range 18446744073709551615 /\ U64.in_range 2 /\ 0 < 2 /\
   U64.add 18446744073709551615 2 = 1 /\
   ceil_division 18446744073709551615 2 = Some 0 /\
   is_ceiling 18446744073709551615 2 9223372036854775808 /\
   U64.in_range 9223372036854775808 /\
   ~ (exists q, ceil_division 18446744073709551615 2 = Some q /\
                is_ceiling 18446744073709551615 2 q)) /\
  (U64.in_range 9223372036854775809 /\ 0 < 9223372036854775809 /\
   ceil_division 9223372036854775809 9223372036854775809 = Some 0 /\
   is_ceiling 9223372036854775809 9223372036854775809 1 /\
   ~ (exists q,
        ceil_division 9223372036854775809 9223372036854775809 = Some q /\
        is_ceiling 9223372036854775809 9223372036854775809 q)).
Proof.
  split.
  - split; [u64_range |]. split; [u64_range |]. split; [lia |].
    split; [reflexivity |]. split; [reflexivity |]. split; [| split].
    + split; [lia |]. intros q' Hq'. lia.
    + u64_range.
    + intros (q & Hq & [H _]).
      change (ceil_division 18446744073709551615 2) with (Some 0) in Hq.
      injection Hq as <-. lia.
  - split; [u64_range |]. split; [lia |]. split; [reflexivity |]. split.
    + split; [lia |]. intros q' Hq'. lia.
    + intros (q & Hq & [H _]).
      change (ceil_division 9223372036854775809 9223372036854775809)
        with (Some 0) in Hq.
      injection Hq as <-. lia.
Qed.

(** C7, on the inputs where nothing wraps. For 64-bit unsigned [a] and [b]
    with [0 < b] and [a + b - 1] below [2^64], [next_multiple_of a b] is
    [ceil_division a b * b] and is the smallest multiple of [b] greater
    than or equal to [a]. [next_multiple_of 7 4 = 8] and
    [next_multiple_of 8 4 = 8]. *)
Theorem next_multiple_of_spec (a b : Z) :
  U64.in_range a -> U64.in_range b -> 0 < b ->
  a + b - 1 < U64.modulus ->
  (exists q m, ceil_division a b = Some q /\
     next_multiple_of a b = Some m /\
     m = q * b /\
     least_multiple_ge a b m) /\
  next_multiple_of 7 4 = Some 8 /\ next_multiple_of 8 4 = Some 8.
Proof.
  intros Ha Hb Hpos Hfit. split; [| split; reflexivity].
  pose proof (in_range_elim _ Ha) as Ha'. rewrite modulus_eq in Hfit.
  assert (Hq : ceil_division a b = Some ((a + b - 1) / b)).
  { rewrite ceil_division_eq by lia.
    rewrite (wrap_small (a + b - 1)) by u64_range. reflexivity. }
  destruct (Zdiv_is_ceiling a b Hpos) as [Hge Hmin].
  pose proof (Z.mul_div_le (a + b - 1) b Hpos) as Hle.
  set (q := (a + b - 1) / b) in *.
  assert (Hm : U64.mul q b = q * b).
  { unfold U64.mul. apply wrap_small. u64_range. }
  exists q, (q * b). split; [exact Hq |].
  split; [unfold next_multiple_of; rewrite Hq; simpl; rewrite Hm;
          reflexivity |].
  split; [reflexivity |].
  split; [exists q; reflexivity |]. split; [exact Hge |].
  intros m' [k ->] Hk. specialize (Hmin k Hk). nia.
Qed.

Lemma next_multiple_of_spec_witness :
  exists m, next_multiple_of 1000 3 = Some m /\ least_multiple_ge 1000 3 m.
Proof.
  destruct (next_multiple_of_spec 1000 3) as [(q & m & _ & Hm & _ & Hl) _];
    [u64_range | u64_range | lia | rewrite modulus_eq; lia |].
  exists m. split; [exact Hm | exact Hl].
Defined.

(** C7, as stated, fails where the smallest multiple does not fit in 64
    bits: for [a = 2^64 - 1] and [b = 2] it is [2^64], and
    [next_multiple_of] returns [0], which is smaller than [a]. *)
Lemma next_multiple_of_overflow_counterexample :
  U64.in_range 18446744073709551615 /\ U64.in_range 2 /\ 0 < 2 /\
  least_multiple_ge 18446744073709551615 2 18446744073709551616 /\
  ~ U64.in_range 18446744073709551616 /\
  next_multiple_of 18446744073709551615 2 = Some 0 /\
  ~ (exists m, next_multiple_of 18446744073709551615 2 = Some m /\
               least_multiple_ge 18446744073709551615 2 m).
Proof.
  split; [u64_range |]. split; [u64_range |]. split; [lia |].
  split; [| split; [| split]].
  - split; [exists 9223372036854775808; reflexivity |]. split; [lia |].
    intros m' [k ->] Hk. lia.
  - intros H. apply in_range_elim in H. lia.
  - reflexivity.
  - intros (m & Hm & (_ & H & _)).
    change (next_multiple_of 18446744073709551615 2) with (Some 0) in Hm.
    injection Hm as <-. lia.
Qed.

(** ** [static_array]: loops and operators *)

Lemma array_eqb_eq d1 d2 : array_eqb d1 d2 = true <-> d1 = d2.
Proof.
  revert d2. induction d1 as [| x d1 IH]; intros [| y d2]; simpl;
    try (split; [discriminate | discriminate]); [tauto |].
  rewrite andb_true_iff, Z.eqb_eq, IH. split.
  - intros [-> ->]. reflexivity.
  - intros [= -> ->]. split; reflexivity.
Qed.

Lemma array_eqb_refl d : array_eqb d d = true.
Proof. apply array_eqb_eq. reflexivity. Qed.

(** Two arrays of one length differ exactly when they differ at an index. *)
Lemma array_eqb_false d1 d2 :
  length d1 = length d2 ->
  array_eqb d1 d2 = false <->
  exists i x y, d1 !! i = Some x /\ d2 !! i = Some y /\ x <> y.
Proof.
  revert d2. induction d1 as [| x d1 IH]; intros [| y d2] Hlen;
    simpl in Hlen; try discriminate.
  - simpl. split; [discriminate |]. intros (i & ? & ? & H & _).
    destruct i; discriminate.
  - simpl. rewrite andb_false_iff, Z.eqb_neq, IH by lia. split.
    + intros [Hne | (i & x' & y' & H1 & H2 & Hne)].
      * exists 0%nat, x, y. auto.
      * exists (S i), x', y'. auto.
    + intros (i & x' & y' & H1 & H2 & Hne). destruct i as [| i].
      * left. simpl in H1, H2. congruence.
      * right. exists i, x', y'. auto.
Qed.

Lemma array_write_lt d i v :
  (i < length d)%nat -> array_write d i v = Some (<[i:=v]> d).
Proof. intros H. unfold array_write. rewrite decide_True; auto. Qed.

Lemma take_S_insert (d : list Z) i v :
  (i < length d)%nat -> take (S i) (<[i:=v]> d) = take i d ++ [v].
Proof.
  intros H. rewrite (take_S_r _ _ v).
  - rewrite take_insert_ge; [reflexivity | lia].
  - apply list_lookup_insert_eq. exact H.
Qed.

(** The constructor's loop, started at iteration [i] with [n] to go. *)
Lemma fill_loop v n : forall i d,
  length d = (i + n)%nat ->
  for_loop (fun i d => array_write d i v) i n d
  = Some (take i d ++ replicate n v).
Proof.
  induction n as [| n IH]; intros i d Hlen; simpl.
  - rewrite app_nil_r, take_ge; [reflexivity | lia].
  - rewrite array_write_lt by lia. simpl.
    rewrite IH by (rewrite length_insert; lia).
    rewrite take_S_insert by lia. rewrite <- app_assoc. reflexivity.
Qed.

Lemma static_array_default_length junk Dim :
  length (_data (static_array_default junk Dim)) = Dim.
Proof. simpl. rewrite length_map, length_seq. reflexivity. Qed.

Lemma static_array_fill_eq junk Dim v :
  static_array_fill junk Dim v = Some (StaticArray (replicate Dim v)).
Proof.
  unfold static_array_fill.
  rewrite fill_loop by (rewrite static_array_default_length; reflexivity).
  reflexivity.
Qed.

(** The loop of the binary operators, started at iteration [i]. *)
Lemma ooplace_loop op (a b : list Z) n : forall i result,
  length a = (i + n)%nat -> length b = (i + n)%nat ->
  length result = (i + n)%nat ->
  for_loop (fun i result =>
              x ← array_read a i; y ← array_read b i;
              v ← eval_binop op x y; array_write result i v)
    i n result
  = (fun vs => take i result ++ vs) <$> pointwise op (drop i a) (drop i b).
Proof.
  induction n as [| n IH]; intros i result Ha Hb Hr; simpl.
  - rewrite !drop_ge by lia. simpl. rewrite app_nil_r, take_ge by lia.
    reflexivity.
  - destruct (lookup_lt_is_Some_2 a i) as [x Hx]; [lia |].
    destruct (lookup_lt_is_Some_2 b i) as [y Hy]; [lia |].
    rewrite (drop_S a x i Hx), (drop_S b y i Hy). unfold array_read.
    rewrite Hx, Hy. simpl.
    destruct (eval_binop op x y) as [v |]; simpl; [| reflexivity].
    rewrite array_write_lt by lia. simpl.
    rewrite IH by (rewrite ?length_insert; lia).
    rewrite take_S_insert by lia.
    destruct (pointwise op (drop (S i) a) (drop (S i) b)); simpl;
      [| reflexivity].
    rewrite <- app_assoc. reflexivity.
Qed.

Lemma ooplace_op_pointwise junk op {Dim} (a b : static_array Dim) :
  length (_data a) = Dim -> length (_data b) = Dim ->
  ooplace_op junk op a b = StaticArray <$> pointwise op (_data a) (_data b).
Proof.
  intros Ha Hb. unfold ooplace_op.
  rewrite ooplace_loop by (rewrite ?static_array_default_length; lia).
  rewrite !drop_0, take_0.
  destruct (pointwise op (_data a) (_data b)); reflexivity.
Qed.

(** The loop of [size()], started at iteration [i] with accumulator [s]. *)
Lemma size_loop (d : list Z) n : forall i s,
  length d = (i + n)%nat -> U64.in_range s ->
  for_loop (fun i s => x ← array_read d i; Some (U64.mul s x)) i n s
  = Some (U64.wrap (s * product (drop i d))).
Proof.
  induction n as [| n IH]; intros i s Hlen Hs; simpl.
  - rewrite drop_ge by lia. simpl. rewrite Z.mul_1_r, wrap_small; auto.
  - destruct (lookup_lt_is_Some_2 d i) as [x Hx]; [lia |].
    unfold array_read. rewrite Hx. simpl.
    rewrite IH; [| lia | apply wrap_in_range].
    rewrite (drop_S d x i Hx). simpl. f_equal.
    unfold U64.mul, U64.wrap.
    rewrite Z.mul_mod_idemp_l by (rewrite modulus_eq; lia).
    f_equal. unfold product. simpl. lia.
Qed.

Lemma size_product {Dim} (a : static_array Dim) :
  length (_data a) = Dim -> size a = Some (U64.wrap (product (_data a))).
Proof.
  intros Hlen. unfold size. rewrite size_loop; [| lia | u64_range].
  simpl. rewrite Z.mul_1_l. reflexivity.
Qed.

Lemma product_replicate n s : product (replicate n s) = s ^ Z.of_nat n.
Proof.
  induction n as [| n IH]; [reflexivity |].
  rewrite Nat2Z.inj_succ, Z.pow_succ_r by lia.
  unfold product in *. simpl. rewrite IH. reflexivity.
Qed.

Lemma drop_eq_step (l1 l2 : list Z) i x :
  l2 !! i = Some x -> drop i l1 = drop i l2 ->
  l1 !! i = Some x /\ drop (S i) l1 = drop (S i) l2.
Proof.
  intros Hx Hd. rewrite (drop_S l2 x i Hx) in Hd. split.
  - rewrite <- (Nat.add_0_r i), <- lookup_drop, Hd. reflexivity.
  - replace (S i) with (i + 1)%nat by lia.
    rewrite <- (drop_drop l1), Hd, <- (drop_drop l2), (drop_S l2 x i Hx).
    reflexivity.
Qed.

(** The loop of the compound assignments, started at iteration [i]: [cur]
    is the content of [*this] and [db] the content of [b] at that point;
    from index [i] on both still hold the operands. *)
Lemma inplace_loop op (a b : list Z) (this bl : loc) n :
  forall i (st : gmap loc (list Z)) cur db,
  length a = (i + n)%nat -> length b = (i + n)%nat ->
  st !! this = Some cur -> length cur = (i + n)%nat ->
  drop i cur = drop i a ->
  st !! bl = Some db -> drop i db = drop i b ->
  for_loop (fun i st =>
              x ← load st this i; y ← load st bl i;
              v ← eval_binop op x y; store_at st this i v)
    i n st
  = (fun vs => <[this := take i cur ++ vs]> st)
      <$> pointwise op (drop i a) (drop i b).
Proof.
  induction n as [| n IH]; intros i st cur db Ha Hb Hthis Hcur Hda Hbl Hdb;
    simpl.
  - rewrite !drop_ge by lia. simpl. rewrite app_nil_r, take_ge by lia.
    rewrite insert_id by exact Hthis. reflexivity.
  - destruct (lookup_lt_is_Some_2 a i) as [x Hx]; [lia |].
    destruct (lookup_lt_is_Some_2 b i) as [y Hy]; [lia |].
    destruct (drop_eq_step cur a i x Hx Hda) as [Hcx Hda'].
    destruct (drop_eq_step db b i y Hy Hdb) as [Hby Hdb'].
    rewrite (drop_S a x i Hx), (drop_S b y i Hy).
    unfold load, store_at, array_read. rewrite Hthis, Hbl. simpl.
    rewrite Hcx, Hby. simpl.
    destruct (eval_binop op x y) as [v |]; simpl; [| reflexivity].
    rewrite array_write_lt by lia. simpl.
    assert (Hdc : drop (S i) (<[i:=v]> cur) = drop (S i) a)
      by (rewrite drop_insert_lt by lia; exact Hda').
    rewrite (IH (S i) _ (<[i:=v]> cur)
               (if decide (bl = this) then <[i:=v]> cur else db)).
    + rewrite take_S_insert by lia.
      destruct (pointwise op (drop (S i) a) (drop (S i) b)); simpl;
        [| reflexivity].
      rewrite insert_insert_eq, <- app_assoc. reflexivity.
    + lia.
    + lia.
    + apply lookup_insert_eq.
    + rewrite length_insert. lia.
    + exact Hdc.
    + destruct (decide (bl = this)) as [-> | Hne].
      * apply lookup_insert_eq.
      * rewrite lookup_insert_ne by congruence. exact Hbl.
    + destruct (decide (bl = this)) as [-> | Hne]; [| exact Hdb'].
      assert (db = cur) as -> by congruence.
      rewrite drop_insert_lt by lia. exact Hdb'.
Qed.

Lemma pointwise_is_Some op (d1 d2 : list Z) :
  (op = Divide \/ op = Modulo -> Forall (fun y => y <> 0) d2) ->
  is_Some (pointwise op d1 d2).
Proof.
  revert d2. induction d1 as [| x d1 IH]; intros [| y d2] Hnz; simpl; eauto.
  assert (Hv : is_Some (eval_binop op x y)).
  { destruct op; simpl; eauto; unfold U64.div, U64.rem;
      (assert (Hy : y <> 0)
         by (refine (Forall_inv (Hnz _)); auto));
      destruct (Z.eqb_spec y 0); [contradiction | eauto | contradiction | eauto]. }
  destruct Hv as [v ->]. simpl.
  destruct (IH d2) as [vs ->]; [| simpl; eauto].
  intros Hop. exact (Forall_inv_tail (Hnz Hop)).
Qed.

Lemma pointwise_length op : forall (d1 d2 vs : list Z),
  length d1 = length d2 -> pointwise op d1 d2 = Some vs ->
  length vs = length d1.
Proof.
  induction d1 as [| x d1 IH]; intros [| y d2] vs Hlen H; simpl in *;
    try discriminate; try (injection H as <-; reflexivity).
  destruct (eval_binop op x y); simpl in H; [| discriminate].
  destruct (pointwise op d1 d2) as [vs' |] eqn:E; simpl in H; [| discriminate].
  injection H as <-. simpl. f_equal. apply (IH d2); [lia | exact E].
Qed.

Lemma eval_binop_in_range op x y v :
  U64.in_range x -> U64.in_range y ->
  eval_binop op x y = Some v -> U64.in_range v.
Proof.
  intros Hx Hy. apply in_range_elim in Hx, Hy.
  destruct op; simpl; unfold U64.div, U64.rem;
    try (intros [= <-]; apply wrap_in_range);
    destruct (Z.eqb_spec y 0); intros [= <-]; apply in_range_intro.
  - pose proof (Z.div_pos x y). pose proof (Z.div_le_upper_bound x y x).
    split; [lia | nia].
  - pose proof (Z.mod_pos_bound x y). lia.
Qed.

Lemma pointwise_in_range op : forall (d1 d2 vs : list Z),
  Forall U64.in_range d1 -> Forall U64.in_range d2 ->
  pointwise op d1 d2 = Some vs -> Forall U64.in_range vs.
Proof.
  induction d1 as [| x d1 IH]; intros [| y d2] vs H1 H2 H; simpl in H;
    try (injection H as <-; constructor).
  destruct (eval_binop op x y) as [v |] eqn:Ev; simpl in H; [| discriminate].
  destruct (pointwise op d1 d2) as [vs' |] eqn:E; simpl in H; [| discriminate].
  injection H as <-. constructor.
  - exact (eval_binop_in_range op x y v (Forall_inv H1) (Forall_inv H2) Ev).
  - exact (IH d2 vs' (Forall_inv_tail H1) (Forall_inv_tail H2) E).
Qed.

(** The compound assignment and the binary operator agree on every input,
    undefined behaviour included, whether or not [b] is [*this]. *)
Lemma inplace_op_ooplace_op junk op {Dim} (a b : static_array Dim)
    (this bl : loc) (st : store) :
  wf a -> wf b ->
  st !! this = Some (_data a) -> st !! bl = Some (_data b) ->
  inplace_op op Dim this bl st
  = (fun r => <[this := _data r]> st) <$> ooplace_op junk op a b.
Proof.
  intros [Ha _] [Hb _] Hthis Hbl. rewrite ooplace_op_pointwise by assumption.
  unfold inplace_op.
  rewrite (inplace_loop op (_data a) (_data b) this bl Dim 0 st
             (_data a) (_data b)) by (auto; lia).
  rewrite !drop_0, take_0.
  destruct (pointwise op (_data a) (_data b)); reflexivity.
Qed.

Lemma pointwise_plus_comm : forall d1 d2 : list Z,
  length d1 = length d2 -> pointwise Plus d1 d2 = pointwise Plus d2 d1.
Proof.
  induction d1 as [| x d1 IH]; intros [| y d2] Hlen; simpl in *;
    try discriminate; [reflexivity |].
  rewrite (IH d2) by lia. unfold U64.add. rewrite (Z.add_comm x y).
  reflexivity.
Qed.

Lemma add_sub_cancel x y : U64.in_range x -> U64.sub (U64.add x y) y = x.
Proof.
  intros Hx. unfold U64.sub, U64.add, U64.wrap.
  rewrite Zminus_mod_idemp_l. replace (x + y - y) with x by lia.
  apply wrap_small. exact Hx.
Qed.

Lemma pointwise_plus_minus : forall d1 d2 : list Z,
  length d1 = length d2 -> Forall U64.in_range d1 ->
  exists s, pointwise Plus d1 d2 = Some s /\ length s = length d1 /\
            pointwise Minus s d2 = Some d1.
Proof.
  induction d1 as [| x d1 IH]; intros [| y d2] Hlen Hr; simpl in *;
    try discriminate.
  - exists []. auto.
  - destruct (IH d2) as (s & -> & Hs & Hm);
      [lia | exact (Forall_inv_tail Hr) |].
    exists (U64.add x y :: s). simpl. rewrite Hm. simpl.
    rewrite add_sub_cancel by exact (Forall_inv Hr). auto.
Qed.

Lemma op_index_of_nat {Dim} (a : static_array Dim) (n : nat) :
  op_index a (Z.of_nat n) = _data a !! n.
Proof.
  unfold op_index, array_read.
  destruct (Z.ltb_spec (Z.of_nat n) 0); [lia |]. rewrite Nat2Z.id.
  reflexivity.
Qed.

Lemma op_index_Some {Dim} (a : static_array Dim) (i x : Z) :
  op_index a i = Some x -> 0 <= i /\ _data a !! Z.to_nat i = Some x.
Proof.
  unfold op_index, array_read.
  destruct (Z.ltb_spec i 0); [discriminate |]. auto.
Qed.

(** ** Laws of [static_array] *)

(** C8. For every dimension and all vectors [a], [b] of that dimension:
    [a + b == b + a]; [(a + b) - b == a]; [a == a]; and [a != b] holds
    exactly when some component of [a] differs from the same component of
    [b]. *)
Theorem static_array_algebra (junk : nat -> Z) (Dim : nat)
    (a b : static_array Dim) :
  wf a -> wf b ->
  (exists ab ba, ooplace_op junk Plus a b = Some ab /\
     ooplace_op junk Plus b a = Some ba /\ op_eq ab ba = true) /\
  (exists ab d, ooplace_op junk Plus a b = Some ab /\
     ooplace_op junk Minus ab b = Some d /\ op_eq d a = true) /\
  op_eq a a = true /\
  (op_ne a b = true <->
   exists i x y, 0 <= i < Z.of_nat Dim /\
     op_index a i = Some x /\ op_index b i = Some y /\ x <> y).
Proof.
  intros [Ha Hra] [Hb Hrb].
  destruct (pointwise_plus_minus (_data a) (_data b)) as (s & Hs & Hls & Hm);
    [lia | exact Hra |].
  assert (Hab : ooplace_op junk Plus a b = Some (StaticArray s))
    by (rewrite ooplace_op_pointwise, Hs by assumption; reflexivity).
  split; [| split; [| split]].
  - exists (StaticArray s), (StaticArray s). split; [exact Hab |]. split.
    + rewrite ooplace_op_pointwise, pointwise_plus_comm, Hs by lia.
      reflexivity.
    + apply array_eqb_refl.
  - exists (StaticArray s), a. split; [exact Hab |]. split.
    + rewrite ooplace_op_pointwise by (simpl; lia). simpl. rewrite Hm.
      destruct a; reflexivity.
    + apply array_eqb_refl.
  - apply array_eqb_refl.
  - unfold op_ne, op_eq. rewrite negb_true_iff, array_eqb_false by lia.
    split.
    + intros (i & x & y & H1 & H2 & Hne). exists (Z.of_nat i), x, y.
      rewrite !op_index_of_nat. split; [| auto].
      apply lookup_lt_Some in H1. lia.
    + intros (i & x & y & _ & H1 & H2 & Hne).
      apply op_index_Some in H1, H2. exists (Z.to_nat i), x, y.
      split; [apply H1 |]. split; [apply H2 | exact Hne].
Qed.

(** C10. For every dimension, every operator of [+ - * / %] and all
    vectors [a], [b] (no component of [b] zero for [/] and [%]): the
    compound assignment run on the object holding [a], with [b] in the same
    or in another object, leaves in it the vector that the binary operator
    returns for [a] and [b], and changes nothing else. *)
Theorem compound_assignment_agrees (junk : nat -> Z) (op : binop)
    (Dim : nat) (a b : static_array Dim) (this bl : loc) (st : store) :
  wf a -> wf b ->
  st !! this = Some (_data a) -> st !! bl = Some (_data b) ->
  (op = Divide \/ op = Modulo -> Forall (fun y => y <> 0) (_data b)) ->
  exists r, ooplace_op junk op a b = Some r /\
    wf r /\
    inplace_op op Dim this bl st = Some (<[this := _data r]> st).
Proof.
  intros Ha Hb Hthis Hbl Hnz.
  rewrite (inplace_op_ooplace_op junk op a b) by assumption.
  destruct Ha as [Ha Hra], Hb as [Hb Hrb].
  rewrite ooplace_op_pointwise by assumption.
  destruct (pointwise_is_Some op (_data a) (_data b) Hnz) as [vs Hvs].
  rewrite Hvs. exists (StaticArray vs). split; [reflexivity |].
  split; [| reflexivity]. split; simpl.
  - rewrite (pointwise_length op (_data a) (_data b) vs);
      [exact Ha | lia | exact Hvs].
  - exact (pointwise_in_range op _ _ vs Hra Hrb Hvs).
Qed.

(** Closes [wf] goals about arrays given by their components. *)
Ltac wf_concrete :=
  split; [reflexivity | repeat constructor; u64_range].

Lemma static_array_algebra_witness :
  wf (static_array_2 3 18446744073709551615) /\
  wf (static_array_2 5 6) /\
  exists ab d,
    ooplace_op (fun _ => 0) Plus
      (static_array_2 3 18446744073709551615) (static_array_2 5 6) = Some ab /\
    ooplace_op (fun _ => 0) Minus ab (static_array_2 5 6) = Some d /\
    op_eq d (static_array_2 3 18446744073709551615) = true.
Proof.
  assert (Ha : wf (static_array_2 3 18446744073709551615)) by wf_concrete.
  assert (Hb : wf (static_array_2 5 6)) by wf_concrete.
  split; [exact Ha |]. split; [exact Hb |].
  exact (proj1 (proj2 (static_array_algebra (fun _ => 0) 2 _ _ Ha Hb))).
Defined.

Lemma compound_assignment_agrees_witness :
  exists r,
    ooplace_op (fun _ => 0) Divide (static_array_2 8 9) (static_array_2 3 4)
      = Some r /\
    wf r /\
    inplace_op Divide 2 0%nat 1%nat (<[0%nat := [8; 9]]> {[1%nat := [3; 4]]})
      = Some (<[0%nat := _data r]> (<[0%nat := [8; 9]]> {[1%nat := [3; 4]]})).
Proof.
  apply (compound_assignment_agrees (fun _ => 0) Divide 2
           (static_array_2 8 9) (static_array_2 3 4) 0%nat 1%nat).
  - wf_concrete.
  - wf_concrete.
  - reflexivity.
  - reflexivity.
  - intros _. simpl. repeat constructor; lia.
Defined.

(** C9, as the code has it. For every scalar [s] and every dimension
    [Dim], [static_array<Dim>(s)] has [Dim] components, each equal to [s],
    and its [size()] is [s ^ Dim mod 2^64], which is [s ^ Dim] when
    [s ^ Dim] fits in 64 bits. *)
Theorem broadcast_spec (junk : nat -> Z) (Dim : nat) (s : Z) :
  U64.in_range s ->
  exists a, static_array_fill junk Dim s = Some a /\
    wf a /\
    (forall i, 0 <= i < Z.of_nat Dim -> op_index a i = Some s) /\
    size a = Some (U64.wrap (s ^ Z.of_nat Dim)) /\
    (s ^ Z.of_nat Dim < U64.modulus -> size a = Some (s ^ Z.of_nat Dim)).
Proof.
  intros Hs. exists (StaticArray (replicate Dim s)).
  split; [apply static_array_fill_eq |].
  assert (Hsize : size (StaticArray (Dim:=Dim) (replicate Dim s))
                  = Some (U64.wrap (s ^ Z.of_nat Dim))).
  { rewrite size_product by apply length_replicate.
    simpl. rewrite product_replicate. reflexivity. }
  split; [| split; [| split]].
  - split; simpl; [apply length_replicate |].
    apply Forall_forall. intros x Hx.
    apply elem_of_replicate in Hx as [-> _]. exact Hs.
  - intros i Hi. rewrite <- (Z2Nat.id i), op_index_of_nat by lia.
    apply lookup_replicate_2. lia.
  - exact Hsize.
  - intros Hfit. rewrite Hsize, wrap_small; [reflexivity |].
    split; [| exact Hfit]. apply Z.pow_nonneg. apply Hs.
Qed.

Lemma broadcast_spec_witness :
  U64.in_range 10 /\
  exists a, static_array_fill (fun _ => 7) 3 10 = Some a /\
    size a = Some 1000.
Proof.
  assert (Hs : U64.in_range 10) by u64_range.
  split; [exact Hs |].
  destruct (broadcast_spec (fun _ => 7) 3 10 Hs) as (a & Ha & _ & _ & _ & Hz).
  exists a. split; [exact Ha |]. apply Hz. rewrite modulus_eq. simpl. lia.
Defined.

(** C9, as stated, fails when [s ^ Dim] does not fit in 64 bits: for
    [s = 2^32] and [Dim = 2] every component is [s] and [size()] is [0],
    while [s ^ 2] is [2^64]. *)
Lemma broadcast_size_counterexample :
  U64.in_range 4294967296 /\
  static_array_fill (fun _ => 0) 2 4294967296
    = Some (static_array_2 4294967296 4294967296) /\
  size (static_array_2 4294967296 4294967296) = Some 0 /\
  size (static_array_2 4294967296 4294967296)
    <> Some (4294967296 ^ Z.of_nat 2).
Proof.
  split; [u64_range |]. split; [reflexivity |]. split; [reflexivity |].
  change (size (static_array_2 4294967296 4294967296)) with (Some 0).
  intros [=].
Qed.

(** ** Laws of the dimensionality conversions *)

Lemma wf_1 (v : static_array 1) : wf v -> exists x, v = StaticArray [x].
Proof.
  destruct v as [d]. intros [Hlen _]. simpl in Hlen.
  destruct d as [| x [| ? ?]]; try discriminate. eauto.
Qed.

Lemma wf_2 (v : static_array 2) : wf v -> exists x y, v = StaticArray [x; y].
Proof.
  destruct v as [d]. intros [Hlen _]. simpl in Hlen.
  destruct d as [| x [| y [| ? ?]]]; try discriminate. eauto.
Qed.

Lemma wf_3 (v : static_array 3) :
  wf v -> exists x y z, v = StaticArray [x; y; z].
Proof.
  destruct v as [d]. intros [Hlen _]. simpl in Hlen.
  destruct d as [| x [| y [| z [| ? ?]]]]; try discriminate. eauto.
Qed.

(** C2. [embed_in_id3] returns [(0, 0, idx[0])] for [Dim = 1],
    [(0, idx[0], idx[1])] for [Dim = 2] and [idx] itself for [Dim = 3];
    [embed_in_range3] returns [(1, 1, r[0])], [(1, r[0], r[1])] and [r]
    itself. The components of each result are stated as they are stored
    and as [operator[]] reads them. *)
Theorem embed_values (v1 : static_array 1) (v2 : static_array 2)
    (v3 : static_array 3) :
  wf v1 -> wf v2 ->
  (exists x0 i r, _data v1 = [x0] /\ op_index v1 0 = Some x0 /\
     embed_in_id3 v1 = Some i /\ _data i = [0; 0; x0] /\
     op_index i 0 = Some 0 /\ op_index i 1 = Some 0 /\
     op_index i 2 = Some x0 /\
     embed_in_range3 v1 = Some r /\ _data r = [1; 1; x0] /\
     op_index r 0 = Some 1 /\ op_index r 1 = Some 1 /\
     op_index r 2 = Some x0) /\
  (exists x0 x1 i r, _data v2 = [x0; x1] /\
     op_index v2 0 = Some x0 /\ op_index v2 1 = Some x1 /\
     embed_in_id3 v2 = Some i /\ _data i = [0; x0; x1] /\
     op_index i 0 = Some 0 /\ op_index i 1 = Some x0 /\
     op_index i 2 = Some x1 /\
     embed_in_range3 v2 = Some r /\ _data r = [1; x0; x1] /\
     op_index r 0 = Some 1 /\ op_index r 1 = Some x0 /\
     op_index r 2 = Some x1) /\
  embed_in_id3 v3 = Some v3 /\
  embed_in_range3 v3 = Some v3.
Proof.
  intros H1 H2.
  destruct (wf_1 v1 H1) as (x & ->). destruct (wf_2 v2 H2) as (y0 & y1 & ->).
  split; [| split; [| split; reflexivity]].
  - exists x, (StaticArray [0; 0; x]), (StaticArray [1; 1; x]).
    repeat split; reflexivity.
  - exists y0, y1, (StaticArray [0; y0; y1]), (StaticArray [1; y0; y1]).
    repeat split; reflexivity.
Qed.

Lemma embed_values_witness :
  wf (StaticArray (Dim:=1) [7]) /\ wf (static_array_2 4 5) /\
  (exists i, embed_in_id3 (StaticArray (Dim:=1) [7]) = Some i /\
     _data i = [0; 0; 7]) /\
  (exists r, embed_in_range3 (static_array_2 4 5) = Some r /\
     _data r = [1; 4; 5]).
Proof.
  assert (H1 : wf (StaticArray (Dim:=1) [7])) by wf_concrete.
  assert (H2 : wf (static_array_2 4 5)) by wf_concrete.
  split; [exact H1 |]. split; [exact H2 |].
  destruct (embed_values _ _ (static_array_3 1 2 3) H1 H2)
    as ((x0 & i & _ & Hx0 & _ & Hi & Hdi & _) &
        (y0 & y1 & _ & r & Hy & _ & _ & _ & _ & _ & _ & _ & Hr & Hdr & _) & _).
  injection Hx0 as <-. injection Hy as <- <-.
  split; [exists i; split; [exact Hi | exact Hdi] |].
  exists r. split; [exact Hr | exact Hdr].
Defined.

(** C1. For [Dim] in [{1, 2, 3}] and every vector [v] of that dimension,
    [extract_from_id3<Dim>(embed_in_id3(v)) == v] and
    [extract_from_range3<Dim>(embed_in_range3(v)) == v]. *)
Theorem extract_embed_roundtrip (junk : nat -> Z) (Dim : nat)
    (v : static_array Dim) :
  dim123 Dim -> wf v ->
  (exists e x, embed_in_id3 v = Some e /\
     extract_from_id3 junk Dim e = Some x /\ op_eq x v = true) /\
  (exists e x, embed_in_range3 v = Some e /\
     extract_from_range3 junk Dim e = Some x /\ op_eq x v = true).
Proof.
  intros [-> | [-> | ->]] Hv.
  - destruct (wf_1 v Hv) as (x & ->). split.
    + exists (static_array_3 0 0 x), (StaticArray [x]).
      repeat split; try reflexivity. apply array_eqb_refl.
    + exists (static_array_3 1 1 x), (StaticArray [x]).
      repeat split; try reflexivity. apply array_eqb_refl.
  - destruct (wf_2 v Hv) as (x & y & ->). split.
    + exists (static_array_3 0 x y), (static_array_2 x y).
      repeat split; try reflexivity. apply array_eqb_refl.
    + exists (static_array_3 1 x y), (static_array_2 x y).
      repeat split; try reflexivity. apply array_eqb_refl.
  - split; exists v, v; repeat split; try reflexivity; apply array_eqb_refl.
Qed.

Lemma extract_embed_roundtrip_witness :
  dim123 2 /\ wf (static_array_2 4 5) /\
  exists e x, embed_in_id3 (static_array_2 4 5) = Some e /\
    extract_from_id3 (fun _ => 9) 2 e = Some x /\
    op_eq x (static_array_2 4 5) = true.
Proof.
  assert (Hd : dim123 2) by (right; left; reflexivity).
  assert (Hv : wf (static_array_2 4 5)) by wf_concrete.
  split; [exact Hd |]. split; [exact Hv |].
  exact (proj1 (extract_embed_roundtrip (fun _ => 9) 2 _ Hd Hv)).
Defined.

(** C3. For [Dim] in [{1, 2, 3}] and every range [r] of that dimension,
    [embed_in_range3(r).size() == r.size()]. *)
Theorem embed_in_range3_size (Dim : nat) (r : static_array Dim) :
  dim123 Dim -> wf r ->
  exists r3 n, embed_in_range3 r = Some r3 /\
    size r3 = Some n /\ size r = Some n.
Proof.
  intros [-> | [-> | ->]] Hr.
  - destruct (wf_1 r Hr) as (x & ->).
    exists (static_array_3 1 1 x), (U64.wrap (product [x])).
    split; [reflexivity |]. rewrite !size_product by reflexivity.
    split; [| reflexivity]. simpl. do 2 f_equal. unfold product. simpl. lia.
  - destruct (wf_2 r Hr) as (x & y & ->).
    exists (static_array_3 1 x y), (U64.wrap (product [x; y])).
    split; [reflexivity |]. rewrite !size_product by reflexivity.
    split; [| reflexivity]. simpl. do 2 f_equal. unfold product. simpl. lia.
  - destruct (wf_3 r Hr) as (x & y & z & ->).
    exists (StaticArray [x; y; z]), (U64.wrap (product [x; y; z])).
    split; [reflexivity |]. rewrite !size_product by reflexivity. auto.
Qed.

Lemma embed_in_range3_size_witness :
  dim123 2 /\ wf (static_array_2 4 5) /\
  exists r3, embed_in_range3 (static_array_2 4 5) = Some r3 /\
    r3 = static_array_3 1 4 5 /\
    size r3 = Some 20 /\ size (static_array_2 4 5) = Some 20.
Proof.
  assert (Hd : dim123 2) by (right; left; reflexivity).
  assert (Hr : wf (static_array_2 4 5)) by wf_concrete.
  split; [exact Hd |]. split; [exact Hr |].
  destruct (embed_in_range3_size 2 (static_array_2 4 5) Hd Hr)
    as (r3 & n & He & Hs3 & Hs).
  exists r3. split; [exact He |].
  injection He as <-. split; [reflexivity |].
  split; reflexivity.
Defined.

(** * Further properties of the integer helpers *)

Lemma in_range_pred a : U64.in_range a -> 1 <= a -> U64.in_range (a - 1).
Proof. intros Ha H1. apply in_range_elim in Ha. u64_range. Qed.

Lemma power_of_2_ceil_step a :
  U64.in_range a -> 1 <= a -> power_of_2_ceil a = next_power_of_2 (a - 1).
Proof.
  intros Ha H1. unfold power_of_2_ceil.
  destruct (Z.eqb_spec a 0) as [? | _]; [lia |].
  unfold U64.sub. rewrite wrap_small; [reflexivity |].
  apply in_range_pred; assumption.
Qed.

Lemma least_pow2_ge_succ a p : least_pow2_ge a p -> least_pow2_gt (a - 1) p.
Proof.
  intros (Hp & Hle & Hmin). split; [exact Hp | split; [lia |]].
  intros q Hq Haq. apply Hmin; [exact Hq | lia].
Qed.

Lemma least_pow2_ge_unique a p q :
  least_pow2_ge a p -> least_pow2_ge a q -> p = q.
Proof.
  intros (Hp & Hap & Hpm) (Hq & Haq & Hqm).
  specialize (Hpm q Hq Haq). specialize (Hqm p Hp Hap). lia.
Qed.

Lemma power_of_2_ceil_small a :
  1 <= a <= 9223372036854775808 -> least_pow2_ge a (power_of_2_ceil a).
Proof.
  intros [H1 H63]. rewrite power_of_2_ceil_step by (try u64_range; lia).
  destruct (least_pow2_gt_exists (a - 1)) as [p Hp]; [lia |].
  rewrite (next_power_of_2_least (a - 1) p); [| u64_range | exact Hp].
  assert (p <= 9223372036854775808) by (apply Hp; [apply is_pow2_63 | lia]).
  destruct (Z.ltb_spec p U64.modulus) as [_ | Hge];
    [| rewrite modulus_eq in Hge; lia].
  apply least_pow2_gt_pred. exact Hp.
Qed.

Lemma power_of_2_ceil_large a :
  U64.in_range a -> 9223372036854775808 < a -> power_of_2_ceil a = 0.
Proof.
  intros Ha H63. pose proof (in_range_elim _ Ha).
  rewrite power_of_2_ceil_step by (assumption || lia).
  destruct (least_pow2_gt_exists (a - 1)) as [p Hp]; [lia |].
  rewrite (next_power_of_2_least (a - 1) p); [| u64_range | exact Hp].
  destruct Hp as (Hp & Hlt & _). pose proof (is_pow2_above_63 p Hp).
  destruct (Z.ltb_spec p U64.modulus); [lia | reflexivity].
Qed.

Lemma is_pow2_in_range_le_63 p :
  is_pow2 p -> U64.in_range p -> 1 <= p <= 9223372036854775808.
Proof.
  intros Hp Hr. pose proof (is_pow2_pos p Hp). apply in_range_elim in Hr.
  split; [lia |].
  destruct (Z_le_gt_dec p 9223372036854775808) as [Hle | Hgt];
    [exact Hle |].
  pose proof (is_pow2_above_63 p Hp). rewrite modulus_eq in *. lia.
Qed.

Lemma least_pow2_ge_self p : is_pow2 p -> least_pow2_ge p p.
Proof. intros Hp. split; [exact Hp |]. split; [lia | auto]. Qed.

(** X1. For a 64-bit unsigned [a], [next_power_of_2 a] is [0] exactly when
    [a >= 2^63]: the overflow result is returned for the upper half of the
    range and for nothing else. *)
Theorem next_power_of_2_zero_iff (a : Z) :
  U64.in_range a ->
  next_power_of_2 a = 0 <-> 9223372036854775808 <= a.
Proof.
  intros Ha. destruct (least_pow2_gt_exists a (proj1 Ha)) as [p Hp].
  rewrite (next_power_of_2_least a p Ha Hp).
  pose proof Hp as (Hpow & Hlt & Hmin). pose proof (is_pow2_pos p Hpow).
  destruct (Z.ltb_spec p U64.modulus) as [Hsmall | Hbig];
    rewrite modulus_eq in *.
  - split; [lia |]. intros H63.
    pose proof (is_pow2_above_63 p Hpow). rewrite modulus_eq in *. lia.
  - split; [| reflexivity]. intros _.
    destruct (Z_le_gt_dec 9223372036854775808 a) as [Hle | Hgt];
      [exact Hle |].
    specialize (Hmin _ is_pow2_63). lia.
Qed.

Lemma next_power_of_2_zero_iff_witness :
  U64.in_range 9223372036854775808 /\
  next_power_of_2 9223372036854775808 = 0.
Proof.
  assert (H : U64.in_range 9223372036854775808) by u64_range.
  split; [exact H |].
  apply (next_power_of_2_zero_iff 9223372036854775808 H). lia.
Defined.

(** X2. For [1 <= a < 2^63], [next_power_of_2 a] is a power of two with
    [a < next_power_of_2 a <= 2 * a]: the result never exceeds twice the
    argument. *)
Theorem next_power_of_2_bounds (a : Z) :
  1 <= a < 9223372036854775808 ->
  is_pow2 (next_power_of_2 a) /\ a < next_power_of_2 a <= 2 * a.
Proof.
  intros [H1 H63].
  assert (Hpos : 0 < a) by lia.
  pose proof (least_pow2_gt_log2 a Hpos) as Hp.
  rewrite (next_power_of_2_least a _ ltac:(u64_range) Hp).
  pose proof (Z.log2_spec a Hpos) as [Hlo _].
  pose proof (Z.log2_nonneg a) as Hn.
  assert (Hdbl : 2 ^ (Z.log2 a + 1) = 2 * 2 ^ Z.log2 a)
    by (rewrite Z.pow_add_r by lia; lia).
  destruct (Z.ltb_spec (2 ^ (Z.log2 a + 1)) U64.modulus) as [_ | Hbig].
  - destruct Hp as (Hpow & Hlt & _). split; [exact Hpow |]. lia.
  - rewrite modulus_eq in Hbig. lia.
Qed.

Lemma next_power_of_2_bounds_witness :
  is_pow2 (next_power_of_2 1000) /\ 1000 < next_power_of_2 1000 <= 2 * 1000.
Proof. apply (next_power_of_2_bounds 1000). lia. Defined.

(** X3. [power_of_2_ceil] is idempotent on every 64-bit unsigned value:
    rounding an already rounded value changes nothing, the overflow result
    [0] included. *)
Theorem power_of_2_ceil_idempotent (a : Z) :
  U64.in_range a ->
  power_of_2_ceil (power_of_2_ceil a) = power_of_2_ceil a.
Proof.
  intros Ha. pose proof (in_range_elim _ Ha) as Ha'.
  destruct (Z.eq_dec a 0) as [-> | Hne]; [reflexivity |].
  destruct (Z_le_gt_dec a 9223372036854775808) as [Hle | Hgt].
  - pose proof (power_of_2_ceil_small a ltac:(lia)) as Hr.
    destruct Hr as (Hpow & Hge & Hmin).
    pose proof (Hmin _ is_pow2_63 Hle) as Hr63.
    apply (least_pow2_ge_unique (power_of_2_ceil a)).
    + apply power_of_2_ceil_small. lia.
    + apply least_pow2_ge_self. exact Hpow.
  - rewrite (power_of_2_ceil_large a) by (assumption || lia). reflexivity.
Qed.

Lemma power_of_2_ceil_idempotent_witness :
  U64.in_range 1000 /\
  power_of_2_ceil (power_of_2_ceil 1000) = power_of_2_ceil 1000.
Proof.
  assert (H : U64.in_range 1000) by u64_range.
  split; [exact H | exact (power_of_2_ceil_idempotent 1000 H)].
Defined.

(** X4. The 64-bit unsigned values that [power_of_2_ceil] leaves unchanged
    are exactly [0] and the powers of two. *)
Theorem power_of_2_ceil_fixed_points (a : Z) :
  U64.in_range a ->
  power_of_2_ceil a = a <-> a = 0 \/ is_pow2 a.
Proof.
  intros Ha. pose proof (in_range_elim _ Ha) as Ha'. split.
  - intros Hfix. destruct (Z.eq_dec a 0) as [-> | Hne]; [left; reflexivity |].
    right. destruct (Z_le_gt_dec a 9223372036854775808) as [Hle | Hgt].
    + rewrite <- Hfix. apply (power_of_2_ceil_small a). lia.
    + rewrite power_of_2_ceil_large in Hfix by (assumption || lia). lia.
  - intros [-> | Hpow]; [reflexivity |].
    pose proof (is_pow2_in_range_le_63 a Hpow Ha) as Hb.
    apply (least_pow2_ge_unique a).
    + apply power_of_2_ceil_small. exact Hb.
    + apply least_pow2_ge_self. exact Hpow.
Qed.

Lemma power_of_2_ceil_fixed_points_witness :
  U64.in_range 4096 /\ power_of_2_ceil 4096 = 4096.
Proof.
  assert (H : U64.in_range 4096) by u64_range.
  split; [exact H |].
  apply (power_of_2_ceil_fixed_points 4096 H).
  right. exists 12. split; [lia | reflexivity].
Defined.

(** X5. [power_of_2_ceil] is monotone on [[0, 2^63]]:
    [a <= b <= 2^63] gives [power_of_2_ceil a <= power_of_2_ceil b]. *)
Theorem power_of_2_ceil_monotone (a b : Z) :
  0 <= a -> a <= b -> b <= 9223372036854775808 ->
  power_of_2_ceil a <= power_of_2_ceil b.
Proof.
  intros Ha Hab Hb.
  destruct (Z.eq_dec b 0) as [-> | Hb0].
  - replace a with 0 by lia. lia.
  - destruct (power_of_2_ceil_small b ltac:(lia)) as (Hpb & Hgeb & _).
    destruct (Z.eq_dec a 0) as [-> | Ha0].
    + pose proof (is_pow2_pos _ Hpb). change (power_of_2_ceil 0) with 0. lia.
    + destruct (power_of_2_ceil_small a ltac:(lia)) as (_ & _ & Hmin).
      apply Hmin; [exact Hpb | lia].
Qed.

Lemma power_of_2_ceil_monotone_witness :
  power_of_2_ceil 100 <= power_of_2_ceil 1000.
Proof. apply power_of_2_ceil_monotone; lia. Defined.

(** X6. For [1 <= a <= 2^63], [a <= power_of_2_ceil a < 2 * a]: rounding
    up to a power of two less than doubles the value. *)
Theorem power_of_2_ceil_bounds (a : Z) :
  1 <= a <= 9223372036854775808 ->
  a <= power_of_2_ceil a < 2 * a.
Proof.
  intros Ha. pose proof (power_of_2_ceil_small a Ha) as Hr.
  split; [apply Hr |].
  destruct (Z.eq_dec a 1) as [-> | Hne]; [change (power_of_2_ceil 1) with 1; lia |].
  assert (Hpos : 0 < a - 1) by lia.
  rewrite (least_pow2_gt_unique _ _ _ (least_pow2_ge_succ _ _ Hr)
             (least_pow2_gt_log2 (a - 1) Hpos)).
  pose proof (Z.log2_spec (a - 1) Hpos) as [Hlo _].
  pose proof (Z.log2_nonneg (a - 1)) as Hn.
  rewrite Z.pow_add_r by lia. lia.
Qed.

Lemma power_of_2_ceil_bounds_witness :
  1000 <= power_of_2_ceil 1000 < 2 * 1000.
Proof. apply (power_of_2_ceil_bounds 1000). lia. Defined.

(** X7. For 64-bit unsigned [a] and [b] with [0 < b], [ceil_division a b]
    is the ceiling of [a / b] if and only if [a + b - 1] fits in 64 bits. *)
Theorem ceil_division_exact_iff (a b : Z) :
  U64.in_range a -> U64.in_range b -> 0 < b ->
  (exists q, ceil_division a b = Some q /\ is_ceiling a b q) <->
  a + b - 1 < U64.modulus.
Proof.
  intros Ha Hb Hpos. rewrite ceil_division_eq by lia. split.
  - intros (q & [= <-] & [Hge _]).
    destruct (Z_lt_ge_dec (a + b - 1) U64.modulus) as [Hlt | Hov];
      [exact Hlt | exfalso].
    rewrite wrapped_quotient_zero in Hge by (assumption || lia).
    apply in_range_elim in Ha, Hb. rewrite modulus_eq in Hov. lia.
  - intros Hfit. exists (U64.wrap (a + b - 1) / b). split; [reflexivity |].
    rewrite wrap_small; [apply Zdiv_is_ceiling; exact Hpos |].
    apply in_range_elim in Ha. unfold U64.in_range. lia.
Qed.

Lemma ceil_division_exact_iff_witness :
  exists q, ceil_division 18446744073709551614 2 = Some q /\
            is_ceiling 18446744073709551614 2 q.
Proof.
  apply (ceil_division_exact_iff 18446744073709551614 2);
    [u64_range | u64_range | lia | rewrite modulus_eq; lia].
Defined.

Lemma ceil_division_fit a b :
  0 <= a -> 0 < b -> a + b - 1 < U64.modulus ->
  ceil_division a b = Some ((a + b - 1) / b).
Proof.
  intros Ha Hb Hfit. rewrite ceil_division_eq by lia.
  rewrite wrap_small; [reflexivity |]. unfold U64.in_range. lia.
Qed.

Lemma Zdiv_ceiling_floor a b :
  0 < b -> (a + b - 1) / b = a / b + (if a mod b =? 0 then 0 else 1).
Proof.
  intros Hb. pose proof (Z.div_mod a b ltac:(lia)) as Hdm.
  pose proof (Z.mod_pos_bound a b Hb) as Hr.
  destruct (Z.eqb_spec (a mod b) 0) as [E | E].
  - symmetry. apply (Z.div_unique_pos _ _ _ (b - 1)); lia.
  - symmetry. apply (Z.div_unique_pos _ _ _ (a mod b - 1)); lia.
Qed.

(** X8. When [a + b - 1] fits in 64 bits and [0 < b], [ceil_division a b]
    is the truncating quotient [a / b] if [b] divides [a], and [a / b + 1]
    otherwise. *)
Theorem ceil_division_floor (a b : Z) :
  0 <= a -> 0 < b -> a + b - 1 < U64.modulus ->
  ceil_division a b = Some (a / b + (if a mod b =? 0 then 0 else 1)).
Proof.
  intros Ha Hb Hfit. rewrite ceil_division_fit by assumption.
  rewrite Zdiv_ceiling_floor by exact Hb. reflexivity.
Qed.

Lemma ceil_division_floor_witness :
  ceil_division 1000 3 = Some (1000 / 3 + (if 1000 mod 3 =? 0 then 0 else 1)).
Proof.
  apply (ceil_division_floor 1000 3); [lia | lia | rewrite modulus_eq; lia].
Defined.

Lemma next_multiple_of_fit a b :
  0 <= a -> 0 < b -> a + b - 1 < U64.modulus ->
  next_multiple_of a b = Some ((a + b - 1) / b * b).
Proof.
  intros Ha Hb Hfit. unfold next_multiple_of.
  rewrite ceil_division_fit by assumption. simpl. f_equal.
  unfold U64.mul. apply wrap_small.
  pose proof (Z.mul_div_le (a + b - 1) b Hb).
  pose proof (Z.div_pos (a + b - 1) b ltac:(lia) Hb).
  unfold U64.in_range. nia.
Qed.

(** X9. When [a + b - 1] fits in 64 bits and [0 < b], [next_multiple_of a b]
    is a multiple [m] of [b] with [a <= m < a + b], and [m] is [a] itself
    exactly when [b] divides [a]. *)
Theorem next_multiple_of_padding (a b : Z) :
  0 <= a -> 0 < b -> a + b - 1 < U64.modulus ->
  exists m, next_multiple_of a b = Some m /\
    m mod b = 0 /\ a <= m < a + b /\ (m = a <-> a mod b = 0).
Proof.
  intros Ha Hb Hfit. exists ((a + b - 1) / b * b).
  split; [apply next_multiple_of_fit; assumption |].
  rewrite Zdiv_ceiling_floor by exact Hb.
  pose proof (Z.div_mod a b ltac:(lia)) as Hdm.
  pose proof (Z.mod_pos_bound a b Hb) as Hr.
  split; [apply Z.mod_mul; lia |].
  destruct (Z.eqb_spec (a mod b) 0) as [E | E]; split; try split; nia.
Qed.

Lemma next_multiple_of_padding_witness :
  exists m, next_multiple_of 1000 16 = Some m /\
    m mod 16 = 0 /\ 1000 <= m < 1000 + 16 /\ (m = 1000 <-> 1000 mod 16 = 0).
Proof.
  apply (next_multiple_of_padding 1000 16);
    [lia | lia | rewrite modulus_eq; lia].
Defined.

(** X10. [next_multiple_of] is idempotent as long as nothing wraps: if
    [next_multiple_of a b] is [m] and both [a + b - 1] and [m + b - 1] fit in
    64 bits, then [next_multiple_of m b] is [m] again. *)
Theorem next_multiple_of_idempotent (a b m : Z) :
  0 <= a -> 0 < b -> a + b - 1 < U64.modulus ->
  next_multiple_of a b = Some m -> m + b - 1 < U64.modulus ->
  next_multiple_of m b = Some m.
Proof.
  intros Ha Hb Hfit Hm Hfit'.
  rewrite next_multiple_of_fit in Hm by assumption. injection Hm as <-.
  pose proof (Z.div_pos (a + b - 1) b ltac:(lia) Hb) as Hq.
  set (q := (a + b - 1) / b) in *.
  rewrite next_multiple_of_fit by (assumption || nia). f_equal.
  rewrite Zdiv_ceiling_floor by exact Hb.
  rewrite Z.mod_mul, Z.div_mul by lia. simpl. lia.
Qed.

Lemma next_multiple_of_idempotent_witness :
  next_multiple_of 1008 16 = Some 1008.
Proof.
  apply (next_multiple_of_idempotent 1000 16 1008);
    [lia | lia | rewrite modulus_eq; lia | reflexivity
    | rewrite modulus_eq; lia].
Defined.

(** The wrap that [next_multiple_of_idempotent] excludes does occur:
    rounding [1] up to a multiple of [2^63 + 1] gives [2^63 + 1], and
    rounding that value again gives [0]. *)
Example next_multiple_of_not_idempotent :
  next_multiple_of 1 9223372036854775809 = Some 9223372036854775809 /\
  next_multiple_of 9223372036854775809 9223372036854775809 = Some 0.
Proof. split; reflexivity. Qed.

(** * Further properties of [static_array] *)

Lemma pointwise_total op (f : Z -> Z -> Z) :
  (forall x y, eval_binop op x y = Some (f x y)) ->
  forall d1 d2, pointwise op d1 d2 = Some (zip_with f d1 d2).
Proof.
  intros Hf. induction d1 as [| x d1 IH]; intros [| y d2]; simpl;
    try reflexivity.
  rewrite Hf, IH. reflexivity.
Qed.

Lemma pointwise_lookup op : forall (d1 d2 vs : list Z) i x y,
  pointwise op d1 d2 = Some vs ->
  d1 !! i = Some x -> d2 !! i = Some y ->
  exists v, eval_binop op x y = Some v /\ vs !! i = Some v.
Proof.
  induction d1 as [| x1 d1 IH]; intros [| y1 d2] vs i x y H H1 H2;
    try (destruct i; discriminate).
  simpl in H.
  destruct (eval_binop op x1 y1) as [v1 |] eqn:Ev; simpl in H;
    [| discriminate].
  destruct (pointwise op d1 d2) as [vs' |] eqn:E; simpl in H; [| discriminate].
  injection H as <-. destruct i as [| i]; simpl in *.
  - injection H1 as <-. injection H2 as <-. eauto.
  - exact (IH d2 vs' i x y E H1 H2).
Qed.

Lemma pointwise_None op : forall d1 d2 : list Z,
  pointwise op d1 d2 = None <->
  exists i x y, d1 !! i = Some x /\ d2 !! i = Some y /\
                eval_binop op x y = None.
Proof.
  induction d1 as [| x1 d1 IH]; intros [| y1 d2]; simpl;
    try (split; [discriminate | intros (i & ? & ? & H1 & H2 & _);
                                destruct i; discriminate]).
  destruct (eval_binop op x1 y1) as [v1 |] eqn:Ev; simpl.
  - destruct (pointwise op d1 d2) as [vs |] eqn:E; simpl.
    + split; [discriminate |]. intros (i & x & y & H1 & H2 & Hn).
      destruct i as [| i]; simpl in *; [congruence |].
      assert (pointwise op d1 d2 = None) by (apply IH; eauto 7).
      congruence.
    + split; [| reflexivity]. intros _.
      destruct (proj1 (IH d2) E) as (i & x & y & H1 & H2 & Hn).
      exists (S i), x, y. auto.
  - split; [| reflexivity]. intros _. exists 0%nat, x1, y1. auto.
Qed.

Lemma op_index_lookup {Dim} (a : static_array Dim) (i : Z) :
  0 <= i -> op_index a i = _data a !! Z.to_nat i.
Proof.
  intros Hi. unfold op_index, array_read.
  destruct (Z.ltb_spec i 0); [lia | reflexivity].
Qed.

Lemma eval_binop_None op x y :
  eval_binop op x y = None <-> (op = Divide \/ op = Modulo) /\ y = 0.
Proof.
  destruct op; simpl; unfold U64.div, U64.rem;
    try (split; [discriminate | intros [[? | ?] _]; discriminate]);
    destruct (Z.eqb_spec y 0); split; auto; try discriminate;
    intros [_ ?]; contradiction.
Qed.

Lemma ooplace_op_total junk op (f : Z -> Z -> Z) {Dim}
    (a b : static_array Dim) :
  (forall x y, eval_binop op x y = Some (f x y)) ->
  length (_data a) = Dim -> length (_data b) = Dim ->
  ooplace_op junk op a b
  = Some (StaticArray (zip_with f (_data a) (_data b))).
Proof.
  intros Hf Ha Hb. rewrite ooplace_op_pointwise by assumption.
  rewrite (pointwise_total op f Hf). reflexivity.
Qed.

(** X11. A binary operator that returns does so component by component:
    for every index [i] below [Dim], component [i] of [a op b] is
    [a[i] op b[i]] in [std::size_t] arithmetic, and the result is again a
    vector of [Dim] 64-bit components. *)
Theorem binary_operator_componentwise (junk : nat -> Z) (op : binop)
    (Dim : nat) (a b r : static_array Dim) :
  wf a -> wf b -> ooplace_op junk op a b = Some r ->
  wf r /\
  forall i, 0 <= i < Z.of_nat Dim ->
    exists x y v, op_index a i = Some x /\ op_index b i = Some y /\
      eval_binop op x y = Some v /\ op_index r i = Some v.
Proof.
  intros [Ha Hra] [Hb Hrb] Hr.
  rewrite ooplace_op_pointwise in Hr by assumption.
  destruct (pointwise op (_data a) (_data b)) as [vs |] eqn:E;
    [| discriminate].
  injection Hr as <-. split.
  - split; simpl.
    + rewrite (pointwise_length op (_data a) (_data b) vs);
        [exact Ha | lia | exact E].
    + exact (pointwise_in_range op _ _ vs Hra Hrb E).
  - intros i Hi. rewrite !op_index_lookup by lia.
    destruct (lookup_lt_is_Some_2 (_data a) (Z.to_nat i)) as [x Hx]; [lia |].
    destruct (lookup_lt_is_Some_2 (_data b) (Z.to_nat i)) as [y Hy]; [lia |].
    destruct (pointwise_lookup op _ _ vs _ x y E Hx Hy) as (v & Hv & Hvs).
    exists x, y, v. auto.
Qed.

Lemma binary_operator_componentwise_witness :
  exists x y v,
    op_index (static_array_2 17 18) 1 = Some x /\
    op_index (static_array_2 5 7) 1 = Some y /\
    eval_binop Modulo x y = Some v /\
    op_index (static_array_2 2 4) 1 = Some v.
Proof.
  refine (proj2 (binary_operator_componentwise (fun _ => 0) Modulo 2
                   (static_array_2 17 18) (static_array_2 5 7)
                   (static_array_2 2 4) _ _ _) 1 _);
    [wf_concrete | wf_concrete | reflexivity | simpl; lia].
Defined.

(** X12. For vectors [a] and [b], [a op b] is undefined exactly when [op]
    is [/] or [%] and some component of [b] is zero; [+], [-] and [*]
    always return. *)
Theorem binary_operator_undefined_iff (junk : nat -> Z) (op : binop)
    (Dim : nat) (a b : static_array Dim) :
  wf a -> wf b ->
  ooplace_op junk op a b = None <->
  (op = Divide \/ op = Modulo) /\
  exists i, 0 <= i < Z.of_nat Dim /\ op_index b i = Some 0.
Proof.
  intros [Ha _] [Hb _]. rewrite ooplace_op_pointwise by assumption.
  rewrite fmap_None, pointwise_None. split.
  - intros (i & x & y & Hx & Hy & Hn).
    apply eval_binop_None in Hn as [Hop ->]. split; [exact Hop |].
    exists (Z.of_nat i). rewrite op_index_of_nat.
    split; [| exact Hy]. apply lookup_lt_Some in Hy. lia.
  - intros (Hop & i & Hi & Hy). rewrite op_index_lookup in Hy by lia.
    destruct (lookup_lt_is_Some_2 (_data a) (Z.to_nat i)) as [x Hx]; [lia |].
    exists (Z.to_nat i), x, 0. split; [exact Hx |]. split; [exact Hy |].
    apply eval_binop_None. auto.
Qed.

Lemma binary_operator_undefined_iff_witness :
  ooplace_op (fun _ => 0) Divide (static_array_2 8 9) (static_array_2 3 0)
  = None.
Proof.
  apply (binary_operator_undefined_iff (fun _ => 0) Divide 2
           (static_array_2 8 9) (static_array_2 3 0));
    [wf_concrete | wf_concrete |].
  split; [left; reflexivity |]. exists 1. split; [lia | reflexivity].
Defined.

Lemma div_mul_add_rem x y :
  U64.in_range x -> y <> 0 -> U64.in_range y ->
  exists q r, U64.div x y = Some q /\ U64.rem x y = Some r /\
              U64.add (U64.mul q y) r = x.
Proof.
  intros Hx Hy0 Hy. apply in_range_elim in Hx, Hy.
  exists (x / y), (x mod y). unfold U64.div, U64.rem.
  destruct (Z.eqb_spec y 0); [contradiction |].
  split; [reflexivity |]. split; [reflexivity |].
  pose proof (Z.div_mod x y Hy0) as Hdm.
  pose proof (Z.mod_pos_bound x y ltac:(lia)) as Hr.
  pose proof (Z.div_pos x y ltac:(lia) ltac:(lia)) as Hq.
  unfold U64.add, U64.mul. rewrite (wrap_small (x / y * y)) by (u64_range).
  replace (x / y * y + x mod y) with x by lia.
  apply wrap_small. u64_range.
Qed.

Lemma pointwise_div_mod : forall d1 d2 : list Z,
  length d1 = length d2 ->
  Forall U64.in_range d1 -> Forall U64.in_range d2 ->
  Forall (fun y => y <> 0) d2 ->
  exists q r p, pointwise Divide d1 d2 = Some q /\
    pointwise Modulo d1 d2 = Some r /\
    pointwise Times q d2 = Some p /\
    pointwise Plus p r = Some d1 /\
    length q = length d1 /\ length r = length d1 /\ length p = length d1.
Proof.
  induction d1 as [| x d1 IH]; intros [| y d2] Hlen H1 H2 Hnz;
    simpl in Hlen; try discriminate.
  - exists [], [], []. simpl. auto 10.
  - destruct (IH d2) as (q & r & p & Hq & Hr & Hp & Hs & Lq & Lr & Lp);
      [lia | exact (Forall_inv_tail H1) | exact (Forall_inv_tail H2)
      | exact (Forall_inv_tail Hnz) |].
    destruct (div_mul_add_rem x y (Forall_inv H1) (Forall_inv Hnz)
                (Forall_inv H2)) as (q0 & r0 & Hq0 & Hr0 & Hs0).
    exists (q0 :: q), (r0 :: r), (U64.mul q0 y :: p). simpl.
    rewrite Hq0, Hr0, Hq, Hr, Hp, Hs, Hs0. simpl. auto 10.
Qed.

(** X13. Division identity: when no component of [b] is zero,
    [(a / b) * b + (a % b)] returns [a]. *)
Theorem division_identity (junk : nat -> Z) (Dim : nat)
    (a b : static_array Dim) :
  wf a -> wf b -> Forall (fun y => y <> 0) (_data b) ->
  exists q r p, ooplace_op junk Divide a b = Some q /\
    ooplace_op junk Modulo a b = Some r /\
    ooplace_op junk Times q b = Some p /\
    ooplace_op junk Plus p r = Some a.
Proof.
  intros [Ha Hra] [Hb Hrb] Hnz.
  destruct (pointwise_div_mod (_data a) (_data b))
    as (q & r & p & Hq & Hr & Hp & Hs & Lq & Lr & Lp);
    [lia | assumption | assumption | assumption |].
  exists (StaticArray q), (StaticArray r), (StaticArray p).
  rewrite !ooplace_op_pointwise by (simpl; lia). simpl.
  rewrite Hq, Hr, Hp, Hs. destruct a; auto.
Qed.

Lemma division_identity_witness :
  exists q r p,
    ooplace_op (fun _ => 0) Divide (static_array_2 17 18) (static_array_2 5 7)
      = Some q /\
    ooplace_op (fun _ => 0) Modulo (static_array_2 17 18) (static_array_2 5 7)
      = Some r /\
    ooplace_op (fun _ => 0) Times q (static_array_2 5 7) = Some p /\
    ooplace_op (fun _ => 0) Plus p r = Some (static_array_2 17 18).
Proof.
  apply (division_identity (fun _ => 0) 2);
    [wf_concrete | wf_concrete | simpl; repeat constructor; lia].
Defined.

Lemma pointwise_replicate op (e : Z) (f : Z -> Z) (d : list Z) :
  (forall x, eval_binop op x e = Some (f x)) ->
  pointwise op d (replicate (length d) e) = Some (map f d).
Proof.
  intros Hf. induction d as [| x d IH]; simpl; [reflexivity |].
  rewrite Hf, IH. reflexivity.
Qed.

Lemma map_fixed (f : Z -> Z) (d : list Z) :
  Forall (fun x => f x = x) d -> map f d = d.
Proof.
  induction 1 as [| x d Hx _ IH]; simpl; [reflexivity |].
  rewrite Hx, IH. reflexivity.
Qed.

Lemma map_const (f : Z -> Z) (c : Z) (d : list Z) :
  (forall x, f x = c) -> map f d = replicate (length d) c.
Proof.
  intros Hf. induction d as [| x d IH]; simpl; [reflexivity |].
  rewrite Hf, IH. reflexivity.
Qed.

Lemma ooplace_op_broadcast junk op (e : Z) (f : Z -> Z) (d : list Z) :
  (forall x, eval_binop op x e = Some (f x)) ->
  ooplace_op junk op (StaticArray (Dim:=length d) d)
    (broadcast (length d) e)
  = Some (StaticArray (map f d)).
Proof.
  intros Hf. rewrite ooplace_op_pointwise;
    [| reflexivity | apply length_replicate].
  simpl. rewrite (pointwise_replicate op e f d Hf). reflexivity.
Qed.

(** X14. The broadcast vectors are the neutral and absorbing elements of
    the operators: with [z = static_array<Dim>(0)] and
    [o = static_array<Dim>(1)], [a + z], [a - z], [a * o] and [a / o]
    return [a], while [a * z] and [a % o] return [z]. *)
Theorem broadcast_neutral (junk : nat -> Z) (Dim : nat)
    (a : static_array Dim) :
  wf a ->
  exists z o, static_array_fill junk Dim 0 = Some z /\
    static_array_fill junk Dim 1 = Some o /\
    ooplace_op junk Plus a z = Some a /\
    ooplace_op junk Minus a z = Some a /\
    ooplace_op junk Times a o = Some a /\
    ooplace_op junk Divide a o = Some a /\
    ooplace_op junk Times a z = Some z /\
    ooplace_op junk Modulo a o = Some z.
Proof.
  intros [Ha Hra]. exists (broadcast Dim 0), (broadcast Dim 1).
  split; [apply static_array_fill_eq |].
  split; [apply static_array_fill_eq |].
  assert (Hsmall : Forall (fun x => U64.wrap x = x) (_data a))
    by (eapply Forall_impl; [exact Hra | apply wrap_small]).
  destruct a as [d]. simpl in *. subst Dim.
  rewrite (ooplace_op_broadcast junk Plus 0 (fun x => U64.add x 0)),
    (ooplace_op_broadcast junk Minus 0 (fun x => U64.sub x 0)),
    (ooplace_op_broadcast junk Times 1 (fun x => U64.mul x 1)),
    (ooplace_op_broadcast junk Divide 1 (fun x => x / 1)),
    (ooplace_op_broadcast junk Times 0 (fun x => U64.mul x 0)),
    (ooplace_op_broadcast junk Modulo 1 (fun x => x mod 1))
    by reflexivity.
  rewrite (map_fixed (fun x => U64.add x 0)),
    (map_fixed (fun x => U64.sub x 0)),
    (map_fixed (fun x => U64.mul x 1)),
    (map_fixed (fun x => x / 1)),
    (map_const (fun x => U64.mul x 0) 0),
    (map_const (fun x => x mod 1) 0); auto 10.
  - intros x. apply Z.mod_1_r.
  - intros x. unfold U64.mul. rewrite Z.mul_0_r. reflexivity.
  - apply Forall_forall. intros x _. apply Z.div_1_r.
  - eapply Forall_impl; [exact Hsmall |]. intros x Hx. simpl in Hx.
    unfold U64.mul. rewrite Z.mul_1_r. exact Hx.
  - eapply Forall_impl; [exact Hsmall |]. intros x Hx. simpl in Hx.
    unfold U64.sub. rewrite Z.sub_0_r. exact Hx.
  - eapply Forall_impl; [exact Hsmall |]. intros x Hx. simpl in Hx.
    unfold U64.add. rewrite Z.add_0_r. exact Hx.
Qed.

Lemma broadcast_neutral_witness :
  exists z o, static_array_fill (fun _ => 5) 2 0 = Some z /\
    static_array_fill (fun _ => 5) 2 1 = Some o /\
    ooplace_op (fun _ => 5) Plus (static_array_2 17 18) z
      = Some (static_array_2 17 18) /\
    ooplace_op (fun _ => 5) Times (static_array_2 17 18) z = Some z.
Proof.
  destruct (broadcast_neutral (fun _ => 5) 2 (static_array_2 17 18))
    as (z & o & Hz & Ho & Hp & _ & _ & _ & Ht & _); [wf_concrete |].
  exists z, o. auto.
Defined.

Lemma modulus_nonzero : U64.modulus <> 0.
Proof. rewrite modulus_eq. lia. Qed.

Lemma add_assoc_wrap x y z :
  U64.add (U64.add x y) z = U64.add x (U64.add y z).
Proof.
  unfold U64.add, U64.wrap.
  rewrite Zplus_mod_idemp_l, Zplus_mod_idemp_r. f_equal. lia.
Qed.

Lemma mul_assoc_wrap x y z :
  U64.mul (U64.mul x y) z = U64.mul x (U64.mul y z).
Proof.
  unfold U64.mul, U64.wrap.
  rewrite Z.mul_mod_idemp_l, Z.mul_mod_idemp_r by apply modulus_nonzero.
  f_equal. lia.
Qed.

Lemma mul_add_distr_wrap x y z :
  U64.mul x (U64.add y z) = U64.add (U64.mul x y) (U64.mul x z).
Proof.
  unfold U64.mul, U64.add, U64.wrap.
  rewrite Z.mul_mod_idemp_r by apply modulus_nonzero.
  rewrite <- Zplus_mod. f_equal. lia.
Qed.

Lemma zip_with_assoc3 (f : Z -> Z -> Z) :
  (forall x y z, f (f x y) z = f x (f y z)) ->
  forall a b c : list Z,
    zip_with f (zip_with f a b) c = zip_with f a (zip_with f b c).
Proof.
  intros Hf. induction a as [| x a IH]; intros [| y b] [| z c]; simpl;
    try reflexivity.
  rewrite Hf, IH. reflexivity.
Qed.

Lemma zip_with_comm2 (f : Z -> Z -> Z) :
  (forall x y, f x y = f y x) ->
  forall a b : list Z, zip_with f a b = zip_with f b a.
Proof.
  intros Hf. induction a as [| x a IH]; intros [| y b]; simpl;
    try reflexivity.
  rewrite Hf, IH. reflexivity.
Qed.

Lemma zip_with_distr (f g : Z -> Z -> Z) :
  (forall x y z, f x (g y z) = g (f x y) (f x z)) ->
  forall a b c : list Z,
    length a = length b -> length b = length c ->
    zip_with f a (zip_with g b c)
    = zip_with g (zip_with f a b) (zip_with f a c).
Proof.
  intros Hf. induction a as [| x a IH]; intros [| y b] [| z c] H1 H2;
    simpl in *; try reflexivity; try discriminate.
  rewrite Hf, IH by lia. reflexivity.
Qed.

(** X15. The binary operators [+] and [*] obey the laws of a commutative
    ring modulo [2^64], component by component: [*] commutes, [+] and [*]
    are associative, and [a * (b + c)] returns the same vector as
    [a * b + a * c]; all the operations involved return. *)
Theorem operators_ring_laws (junk : nat -> Z) (Dim : nat)
    (a b c : static_array Dim) :
  wf a -> wf b -> wf c ->
  (exists r, ooplace_op junk Times a b = Some r /\
     ooplace_op junk Times b a = Some r) /\
  (exists r, ooplace_op junk Plus a b
               ≫= (fun ab => ooplace_op junk Plus ab c) = Some r /\
     ooplace_op junk Plus b c
       ≫= (fun bc => ooplace_op junk Plus a bc) = Some r) /\
  (exists r, ooplace_op junk Times a b
               ≫= (fun ab => ooplace_op junk Times ab c) = Some r /\
     ooplace_op junk Times b c
       ≫= (fun bc => ooplace_op junk Times a bc) = Some r) /\
  (exists r, ooplace_op junk Plus b c
               ≫= (fun bc => ooplace_op junk Times a bc) = Some r /\
     ooplace_op junk Times a b ≫= (fun ab =>
       ooplace_op junk Times a c ≫= (fun ac =>
         ooplace_op junk Plus ab ac)) = Some r).
Proof.
  intros [Ha _] [Hb _] [Hc _].
  assert (Hlen : forall (f : Z -> Z -> Z) (d1 d2 : list Z),
             length d1 = Dim -> length d2 = Dim ->
             length (zip_with f d1 d2) = Dim).
  { intros f d1 d2 H1 H2. rewrite length_zip_with. lia. }
  split; [| split; [| split]].
  - eexists. split.
    + apply (ooplace_op_total junk Times U64.mul); auto.
    + rewrite (ooplace_op_total junk Times U64.mul) by auto.
      rewrite (zip_with_comm2 U64.mul); [reflexivity |].
      intros x y. unfold U64.mul. rewrite Z.mul_comm. reflexivity.
  - eexists.
    rewrite !(ooplace_op_total junk Plus U64.add) by auto. simpl.
    rewrite !(ooplace_op_total junk Plus U64.add) by (simpl; auto). simpl.
    rewrite (zip_with_assoc3 U64.add add_assoc_wrap). auto.
  - eexists.
    rewrite !(ooplace_op_total junk Times U64.mul) by auto. simpl.
    rewrite !(ooplace_op_total junk Times U64.mul) by (simpl; auto). simpl.
    rewrite (zip_with_assoc3 U64.mul mul_assoc_wrap). auto.
  - eexists.
    rewrite !(ooplace_op_total junk Times U64.mul) by auto.
    rewrite !(ooplace_op_total junk Plus U64.add) by auto. simpl.
    rewrite !(ooplace_op_total junk Times U64.mul) by (simpl; auto).
    rewrite !(ooplace_op_total junk Plus U64.add) by (simpl; auto). simpl.
    rewrite (zip_with_distr U64.mul U64.add mul_add_distr_wrap) by lia.
    auto.
Qed.

Lemma operators_ring_laws_witness :
  exists r,
    ooplace_op (fun _ => 0) Plus (static_array_2 5 7)
        (static_array_2 18446744073709551615 2)
      ≫= (fun bc => ooplace_op (fun _ => 0) Times (static_array_2 3 4) bc)
    = Some r /\
    ooplace_op (fun _ => 0) Times (static_array_2 3 4) (static_array_2 5 7)
      ≫= (fun ab =>
        ooplace_op (fun _ => 0) Times (static_array_2 3 4)
            (static_array_2 18446744073709551615 2)
          ≫= (fun ac => ooplace_op (fun _ => 0) Plus ab ac))
    = Some r.
Proof.
  refine (proj2 (proj2 (proj2
            (operators_ring_laws (fun _ => 0) 2 (static_array_2 3 4)
               (static_array_2 5 7)
               (static_array_2 18446744073709551615 2) _ _ _))));
    wf_concrete.
Defined.

Lemma product_zip_mul : forall d1 d2 : list Z,
  length d1 = length d2 ->
  U64.wrap (product (zip_with U64.mul d1 d2))
  = U64.wrap (product d1 * product d2).
Proof.
  induction d1 as [| x d1 IH]; intros [| y d2] Hlen; simpl in Hlen;
    try discriminate; [reflexivity |].
  specialize (IH d2 ltac:(lia)). unfold product in *. simpl.
  unfold U64.mul, U64.wrap in *.
  rewrite Z.mul_mod_idemp_l by apply modulus_nonzero.
  rewrite <- Z.mul_mod_idemp_r, IH, Z.mul_mod_idemp_r
    by apply modulus_nonzero.
  f_equal. lia.
Qed.

(** X16. [size()] is multiplicative: the size of [a * b] is the product, in
    [std::size_t] arithmetic, of the sizes of [a] and [b]. *)
Theorem size_of_product (junk : nat -> Z) (Dim : nat)
    (a b : static_array Dim) :
  wf a -> wf b ->
  exists ab n m, ooplace_op junk Times a b = Some ab /\
    size a = Some n /\ size b = Some m /\
    size ab = Some (U64.mul n m).
Proof.
  intros [Ha _] [Hb _].
  exists (StaticArray (zip_with U64.mul (_data a) (_data b))),
    (U64.wrap (product (_data a))), (U64.wrap (product (_data b))).
  split; [apply (ooplace_op_total junk Times U64.mul); auto |].
  split; [apply size_product; exact Ha |].
  split; [apply size_product; exact Hb |].
  rewrite size_product by (simpl; rewrite length_zip_with; lia). simpl.
  rewrite product_zip_mul by lia. f_equal.
  unfold U64.mul, U64.wrap. apply Zmult_mod.
Qed.

Lemma size_of_product_witness :
  exists ab n m,
    ooplace_op (fun _ => 0) Times (static_array_2 3 4294967296)
        (static_array_2 5 4294967296) = Some ab /\
    size (static_array_2 3 4294967296) = Some n /\
    size (static_array_2 5 4294967296) = Some m /\
    size ab = Some (U64.mul n m).
Proof.
  apply (size_of_product (fun _ => 0) 2); wf_concrete.
Defined.

Lemma product_zero (d : list Z) i :
  d !! i = Some 0 -> product d = 0.
Proof.
  revert i. induction d as [| x d IH]; intros [| i] H; simpl in H;
    try discriminate; unfold product in *; simpl.
  - injection H as ->. lia.
  - rewrite (IH i H). lia.
Qed.

Lemma product_pos (d : list Z) : Forall (fun x => 1 <= x) d -> 1 <= product d.
Proof.
  induction 1 as [| x d Hx _ IH]; unfold product in *; simpl; [lia | nia].
Qed.

(** X17. [size()] of a vector is the product of its components reduced
    modulo [2^64]; it is [0] as soon as one component is [0], and it is a
    64-bit value. With every component at least [1] and a product below
    [2^64] it is at least [1]. *)
Theorem size_value (Dim : nat) (a : static_array Dim) :
  wf a ->
  exists n, size a = Some n /\ U64.in_range n /\
    n = product (_data a) mod 2 ^ 64 /\
    ((exists i, op_index a i = Some 0) -> n = 0) /\
    (Forall (fun x => 1 <= x) (_data a) -> product (_data a) < 2 ^ 64 ->
     1 <= n).
Proof.
  intros [Ha _]. exists (U64.wrap (product (_data a))).
  split; [apply size_product; exact Ha |].
  split; [apply wrap_in_range |]. split; [reflexivity |]. split.
  - intros (i & Hi). apply op_index_Some in Hi as [_ Hi].
    rewrite (product_zero _ _ Hi). reflexivity.
  - intros Hpos Hfit. pose proof (product_pos _ Hpos).
    rewrite wrap_small; [lia |]. unfold U64.in_range.
    change U64.modulus with (2 ^ 64). lia.
Qed.

Lemma size_value_witness :
  exists n, size (static_array_3 7 0 9) = Some n /\ n = 0.
Proof.
  destruct (size_value 3 (static_array_3 7 0 9)) as (n & Hn & _ & _ & Hz & _);
    [wf_concrete |].
  exists n. split; [exact Hn |]. apply Hz. exists 1. reflexivity.
Defined.

(** X18. [operator==] decides equality of vectors: it returns [true]
    exactly on equal vectors, so it is symmetric and transitive, and
    [operator!=] returns [true] exactly on different vectors. *)
Theorem op_eq_equivalence (Dim : nat) (a b c : static_array Dim) :
  (op_eq a b = true <-> a = b) /\
  (op_ne a b = true <-> a <> b) /\
  op_eq a b = op_eq b a /\
  (op_eq a b = true -> op_eq b c = true -> op_eq a c = true).
Proof.
  assert (Heq : forall x y : static_array Dim, op_eq x y = true <-> x = y).
  { intros [dx] [dy]. unfold op_eq. simpl. rewrite array_eqb_eq.
    split; [intros ->; reflexivity | intros [= ->]; reflexivity]. }
  split; [apply Heq |]. split; [| split].
  - unfold op_ne. rewrite negb_true_iff, <- not_true_iff_false, Heq.
    reflexivity.
  - destruct (op_eq a b) eqn:E1, (op_eq b a) eqn:E2; try reflexivity.
    + apply Heq in E1. subst b. rewrite (proj2 (Heq a a) eq_refl) in E2.
      discriminate.
    + apply Heq in E2. subst b. rewrite (proj2 (Heq a a) eq_refl) in E1.
      discriminate.
  - rewrite !Heq. congruence.
Qed.

(** * Properties of the generic conversion *)

Lemma op_index_assign_of_nat {Dim} (d : static_array Dim) (i : nat) v :
  (i < length (_data d))%nat ->
  op_index_assign d (Z.of_nat i) v = Some (StaticArray (<[i:=v]> (_data d))).
Proof.
  intros Hi. unfold op_index_assign.
  destruct (Z.ltb_spec (Z.of_nat i) 0); [lia |].
  rewrite Nat2Z.id, array_write_lt by exact Hi. reflexivity.
Qed.

(** The loop of [make_static_array], started at iteration [i]; [src] lists
    the values [a[0]], [a[1]], ... of the argument. *)
Lemma make_static_array_loop {A : nat -> Type} `{!CompatibleArray A}
    {Dim0 Dim : nat} (a : A Dim0) (src : list Z) n :
  forall i (d : static_array Dim),
  length (_data d) = (i + n)%nat -> length src = (i + n)%nat ->
  (forall k, (i <= k < i + n)%nat ->
     compat_index a (Z.of_nat k) = src !! k) ->
  for_loop (fun i d =>
              x ← compat_index a (Z.of_nat i);
              op_index_assign d (Z.of_nat i) x) i n d
  = Some (StaticArray (take i (_data d) ++ drop i src)).
Proof.
  induction n as [| n IH]; intros i d Hd Hs Hsrc; simpl.
  - rewrite drop_ge, app_nil_r, take_ge by lia. destruct d; reflexivity.
  - destruct (lookup_lt_is_Some_2 src i) as [x Hx]; [lia |].
    rewrite (Hsrc i) by lia. rewrite Hx. simpl.
    rewrite op_index_assign_of_nat by lia. simpl.
    rewrite IH; simpl.
    + rewrite take_S_insert by lia. rewrite (drop_S src x i Hx).
      rewrite <- app_assoc. reflexivity.
    + rewrite length_insert. lia.
    + lia.
    + intros k Hk. apply Hsrc. lia.
Qed.

(** X19. [make_static_array], and with it [make_id] and [make_range],
    copies its argument position by position: when [a[i]] is defined for
    every [i] below [Dim], the result has [Dim] components and its
    component [i] is [a[i]], whatever type [a] has; nothing of the
    indeterminate initial content of the result survives. *)
Theorem make_static_array_copies {A : nat -> Type} `{!CompatibleArray A}
    (junk : nat -> Z) (Dim : nat) (a : A Dim) :
  (forall i, 0 <= i < Z.of_nat Dim -> is_Some (compat_index a i)) ->
  exists d, make_static_array junk a = Some d /\
    make_id junk a = Some d /\ make_range junk a = Some d /\
    length (_data d) = Dim /\
    forall i, 0 <= i < Z.of_nat Dim -> op_index d i = compat_index a i.
Proof.
  intros Hdef.
  set (src := map (fun k => default 0 (compat_index a (Z.of_nat k)))
                (seq 0 Dim)).
  assert (Hlen : length src = Dim)
    by (unfold src; rewrite length_map, length_seq; reflexivity).
  assert (Hsrc : forall k, (k < Dim)%nat ->
             compat_index a (Z.of_nat k) = src !! k).
  { intros k Hk. unfold src.
    rewrite list_lookup_fmap, lookup_seq_lt by exact Hk. simpl.
    destruct (Hdef (Z.of_nat k)) as [x ->]; [lia | reflexivity]. }
  assert (Hmake : make_static_array junk a = Some (StaticArray src)).
  { unfold make_static_array.
    rewrite (make_static_array_loop a src Dim 0).
    - rewrite take_0, drop_0. reflexivity.
    - apply static_array_default_length.
    - exact Hlen.
    - intros k Hk. apply Hsrc. lia. }
  exists (StaticArray src). repeat split; try exact Hmake; try exact Hlen.
  intros i Hi. rewrite op_index_lookup by lia. simpl.
  rewrite <- Hsrc by lia. rewrite Z2Nat.id by lia. reflexivity.
Qed.

Lemma make_static_array_copies_witness :
  exists d, make_static_array (fun _ => 9) (static_array_2 4 5) = Some d /\
    length (_data d) = 2%nat /\
    op_index d 1 = compat_index (static_array_2 4 5) 1.
Proof.
  destruct (make_static_array_copies (fun _ => 9) 2 (static_array_2 4 5))
    as (d & Hd & _ & _ & Hl & Hi).
  - intros i Hi.
    assert (Hc : i = 0 \/ i = 1) by lia.
    destruct Hc as [-> | ->]; eexists; reflexivity.
  - exists d. split; [exact Hd |]. split; [exact Hl |]. apply Hi. simpl. lia.
Defined.

(** X20. On a [static_array] itself [make_static_array] is the identity,
    so the [CompatibleId] overloads of [embed_in_id3] and
    [embed_in_range3] return what the [static_array] overloads return. *)
Theorem make_static_array_identity (junk : nat -> Z) (Dim : nat)
    (a : static_array Dim) :
  wf a ->
  make_static_array junk a = Some a /\
  embed_in_id3_compat junk a = embed_in_id3 a /\
  embed_in_range3_compat junk a = embed_in_range3 a.
Proof.
  intros [Ha _].
  assert (Hmake : make_static_array junk a = Some a).
  { unfold make_static_array.
    rewrite (make_static_array_loop a (_data a) Dim 0).
    - rewrite take_0, drop_0. destruct a; reflexivity.
    - apply static_array_default_length.
    - exact Ha.
    - intros k _. apply (op_index_of_nat a k). }
  split; [exact Hmake |].
  unfold embed_in_id3_compat, embed_in_range3_compat. rewrite Hmake.
  split; reflexivity.
Qed.

Lemma make_static_array_identity_witness :
  make_static_array (fun _ => 9) (static_array_2 4 5)
    = Some (static_array_2 4 5) /\
  embed_in_range3_compat (fun _ => 9) (static_array_2 4 5)
    = Some (static_array_3 1 4 5).
Proof.
  destruct (make_static_array_identity (fun _ => 9) 2 (static_array_2 4 5))
    as (Hm & _ & Hr); [wf_concrete |].
  split; [exact Hm | exact Hr].
Defined.

(** * Further properties of the compound assignments *)

Lemma inplace_op_total op (f : Z -> Z -> Z) {Dim}
    (a b : static_array Dim) (this bl : loc) (st : store) :
  (forall x y, eval_binop op x y = Some (f x y)) ->
  wf a -> wf b ->
  st !! this = Some (_data a) -> st !! bl = Some (_data b) ->
  inplace_op op Dim this bl st
  = Some (<[this := zip_with f (_data a) (_data b)]> st).
Proof.
  intros Hf Ha Hb Hthis Hbl.
  rewrite (inplace_op_ooplace_op (fun _ => 0) op a b) by assumption.
  rewrite (ooplace_op_total (fun _ => 0) op f)
    by (assumption || apply Ha || apply Hb).
  reflexivity.
Qed.

Lemma zip_with_add_sub : forall d1 d2 : list Z,
  length d1 = length d2 -> Forall U64.in_range d1 ->
  zip_with U64.sub (zip_with U64.add d1 d2) d2 = d1.
Proof.
  induction d1 as [| x d1 IH]; intros [| y d2] Hlen Hr; simpl in *;
    try discriminate; [reflexivity |].
  rewrite add_sub_cancel by exact (Forall_inv Hr).
  rewrite IH by (lia || exact (Forall_inv_tail Hr)). reflexivity.
Qed.

(** X21. For two distinct objects, [a += b] followed by [a -= b] puts the
    memory back exactly as it was: the object [a] holds its old value and
    no other object has changed. *)
Theorem compound_add_sub_restores (Dim : nat) (a b : static_array Dim)
    (this bl : loc) (st : store) :
  wf a -> wf b -> this <> bl ->
  st !! this = Some (_data a) -> st !! bl = Some (_data b) ->
  inplace_op Plus Dim this bl st ≫= inplace_op Minus Dim this bl = Some st.
Proof.
  intros Ha Hb Hne Hthis Hbl.
  rewrite (inplace_op_total Plus U64.add a b)
    by (assumption || reflexivity).
  simpl.
  set (s := zip_with U64.add (_data a) (_data b)).
  assert (Hs : wf (StaticArray (Dim:=Dim) s)).
  { destruct Ha as [Ha Hra], Hb as [Hb Hrb]. split; simpl.
    - unfold s. rewrite length_zip_with. lia.
    - apply (pointwise_in_range Plus (_data a) (_data b)); [assumption .. |].
      apply (pointwise_total Plus U64.add). reflexivity. }
  rewrite (inplace_op_total Minus U64.sub (StaticArray s) b);
    [| reflexivity | exact Hs | exact Hb | apply lookup_insert_eq
     | rewrite lookup_insert_ne by exact Hne; exact Hbl].
  simpl. unfold s.
  rewrite zip_with_add_sub by (destruct Ha, Hb; (lia || assumption)).
  rewrite insert_insert_eq, insert_id by exact Hthis. reflexivity.
Qed.

Lemma compound_add_sub_restores_witness :
  inplace_op Plus 2 0%nat 1%nat
      (<[0%nat := [18446744073709551615; 9]]> {[1%nat := [3; 4]]})
    ≫= inplace_op Minus 2 0%nat 1%nat
  = Some (<[0%nat := [18446744073709551615; 9]]> {[1%nat := [3; 4]]}).
Proof.
  apply (compound_add_sub_restores 2
           (static_array_2 18446744073709551615 9) (static_array_2 3 4));
    [wf_concrete | wf_concrete | lia | reflexivity | reflexivity].
Defined.

(** X22. When [b] is the object [*this] itself, every iteration still reads
    the component it is about to overwrite: [a -= a] leaves the zero
    vector and [a += a] leaves every component doubled modulo [2^64]. In
    particular [a += a] followed by [a -= a] does not give [a] back. *)
Theorem compound_self_assignment (Dim : nat) (a : static_array Dim)
    (this : loc) (st : store) :
  wf a -> st !! this = Some (_data a) ->
  inplace_op Minus Dim this this st = Some (<[this := replicate Dim 0]> st) /\
  inplace_op Plus Dim this this st
    = Some (<[this := map (fun x => U64.mul 2 x) (_data a)]> st) /\
  inplace_op Plus Dim this this st ≫= inplace_op Minus Dim this this
    = Some (<[this := replicate Dim 0]> st).
Proof.
  intros Ha Hthis. pose proof Ha as [Hlen Hra].
  assert (Hminus : forall (c : static_array Dim) (st' : store),
             wf c -> st' !! this = Some (_data c) ->
             inplace_op Minus Dim this this st'
             = Some (<[this := replicate Dim 0]> st')).
  { intros c st' Hc Hc'.
    rewrite (inplace_op_total Minus U64.sub c c)
      by (assumption || reflexivity).
    rewrite zip_with_diag.
    change (fmap ?f ?l) with (map f l).
    rewrite (map_const _ 0); [| intros x; unfold U64.sub;
                                 rewrite Z.sub_diag; reflexivity].
    rewrite (proj1 Hc). reflexivity. }
  assert (Hplus : inplace_op Plus Dim this this st
            = Some (<[this := map (fun x => U64.mul 2 x) (_data a)]> st)).
  { rewrite (inplace_op_total Plus U64.add a a)
      by (assumption || reflexivity).
    rewrite zip_with_diag. change (fmap ?f ?l) with (map f l).
    do 2 f_equal. apply map_ext. intros x. unfold U64.add, U64.mul.
    f_equal. lia. }
  split; [exact (Hminus a st Ha Hthis) |]. split; [exact Hplus |].
  rewrite Hplus. simpl.
  rewrite (Hminus (StaticArray (map (fun x => U64.mul 2 x) (_data a)))).
  - rewrite insert_insert_eq. reflexivity.
  - split; simpl; [rewrite length_map; exact Hlen |].
    apply Forall_forall. intros y Hy. apply list_elem_of_In in Hy.
    apply in_map_iff in Hy as (x & <- & _). apply wrap_in_range.
  - apply lookup_insert_eq.
Qed.

Lemma compound_self_assignment_witness :
  inplace_op Minus 2 0%nat 0%nat {[0%nat := [8; 9]]}
  = Some (<[0%nat := replicate 2 0]> {[0%nat := [8; 9]]}).
Proof.
  apply (compound_self_assignment 2 (static_array_2 8 9) 0%nat);
    [wf_concrete | reflexivity].
Defined.

(** * Further properties of the dimensionality conversions *)

Lemma op_eq_true_iff {Dim} (a b : static_array Dim) :
  op_eq a b = true <-> _data a = _data b.
Proof. apply array_eqb_eq. Qed.

(** Instantiates a hypothesis over the indices [0 <= k < n] at [k]. *)
Ltac at_index H k :=
  let Hk := fresh "Hk" in
  pose proof (H k ltac:(simpl; lia)) as Hk; simpl in Hk;
  injection Hk as Hk.

(** X23. Extraction loses the leading components: for a 3-dimensional [v]
    and [Dim] in [{1, 2, 3}], embedding [extract_from_id3<Dim>(v)] again
    gives a vector [==] to [v] exactly when the [3 - Dim] leading
    components of [v] are [0]; for [extract_from_range3] and
    [embed_in_range3], exactly when they are [1]. *)
Theorem embed_extract_lossy (junk : nat -> Z) (Dim : nat)
    (v : static_array 3) :
  dim123 Dim -> wf v ->
  (exists e r, extract_from_id3 junk Dim v = Some e /\
     embed_in_id3 e = Some r /\
     (op_eq r v = true <->
      forall k, 0 <= k < 3 - Z.of_nat Dim -> op_index v k = Some 0)) /\
  (exists e r, extract_from_range3 junk Dim v = Some e /\
     embed_in_range3 e = Some r /\
     (op_eq r v = true <->
      forall k, 0 <= k < 3 - Z.of_nat Dim -> op_index v k = Some 1)).
Proof.
  intros Hd Hv. destruct (wf_3 v Hv) as (x & y & z & ->).
  destruct Hd as [-> | [-> | ->]]; split.
  - exists (StaticArray [z]), (static_array_3 0 0 z).
    split; [reflexivity |]. split; [reflexivity |].
    rewrite op_eq_true_iff. simpl. split.
    + intros [= <- <-] k Hk.
      assert (Hc : k = 0 \/ k = 1) by lia. destruct Hc as [-> | ->];
        reflexivity.
    + intros H. at_index H 0. at_index H 1. congruence.
  - exists (StaticArray [z]), (static_array_3 1 1 z).
    split; [reflexivity |]. split; [reflexivity |].
    rewrite op_eq_true_iff. simpl. split.
    + intros [= <- <-] k Hk.
      assert (Hc : k = 0 \/ k = 1) by lia. destruct Hc as [-> | ->];
        reflexivity.
    + intros H. at_index H 0. at_index H 1. congruence.
  - exists (static_array_2 y z), (static_array_3 0 y z).
    split; [reflexivity |]. split; [reflexivity |].
    rewrite op_eq_true_iff. simpl. split.
    + intros [= <-] k Hk. replace k with 0 by lia. reflexivity.
    + intros H. at_index H 0. congruence.
  - exists (static_array_2 y z), (static_array_3 1 y z).
    split; [reflexivity |]. split; [reflexivity |].
    rewrite op_eq_true_iff. simpl. split.
    + intros [= <-] k Hk. replace k with 0 by lia. reflexivity.
    + intros H. at_index H 0. congruence.
  - exists (StaticArray [x; y; z]), (StaticArray [x; y; z]).
    split; [reflexivity |]. split; [reflexivity |].
    rewrite op_eq_true_iff. split; [intros _ k Hk; simpl in Hk; lia | auto].
  - exists (StaticArray [x; y; z]), (StaticArray [x; y; z]).
    split; [reflexivity |]. split; [reflexivity |].
    rewrite op_eq_true_iff. split; [intros _ k Hk; simpl in Hk; lia | auto].
Qed.

Lemma embed_extract_lossy_witness :
  exists e r, extract_from_id3 (fun _ => 0) 2 (static_array_3 6 4 5) = Some e /\
    embed_in_id3 e = Some r /\ op_eq r (static_array_3 6 4 5) = false.
Proof.
  destruct (embed_extract_lossy (fun _ => 0) 2 (static_array_3 6 4 5))
    as [(e & r & He & Hr & Hiff) _];
    [right; left; reflexivity | wf_concrete |].
  exists e, r. split; [exact He |]. split; [exact Hr |].
  destruct (op_eq r (static_array_3 6 4 5)) eqn:E; [| reflexivity].
  pose proof (proj1 Hiff eq_refl 0 ltac:(simpl; lia)) as H0. discriminate H0.
Defined.

(** X24. Embedding commutes with the arithmetic it is padded for: for ids,
    [embed_in_id3(a + b)] is [embed_in_id3(a) + embed_in_id3(b)]; for
    ranges, [embed_in_range3(a * b)] is
    [embed_in_range3(a) * embed_in_range3(b)]. *)
Theorem embed_respects_operators (junk : nat -> Z) (Dim : nat)
    (a b : static_array Dim) :
  dim123 Dim -> wf a -> wf b ->
  (exists s es ea eb, ooplace_op junk Plus a b = Some s /\
     embed_in_id3 s = Some es /\
     embed_in_id3 a = Some ea /\ embed_in_id3 b = Some eb /\
     ooplace_op junk Plus ea eb = Some es) /\
  (exists p ep ea eb, ooplace_op junk Times a b = Some p /\
     embed_in_range3 p = Some ep /\
     embed_in_range3 a = Some ea /\ embed_in_range3 b = Some eb /\
     ooplace_op junk Times ea eb = Some ep).
Proof.
  intros [-> | [-> | ->]] Ha Hb.
  - destruct (wf_1 a Ha) as (x & ->), (wf_1 b Hb) as (y & ->). split.
    + exists (StaticArray [U64.add x y]), (static_array_3 0 0 (U64.add x y)),
        (static_array_3 0 0 x), (static_array_3 0 0 y).
      rewrite !(ooplace_op_total junk Plus U64.add) by reflexivity.
      repeat split; reflexivity.
    + exists (StaticArray [U64.mul x y]), (static_array_3 1 1 (U64.mul x y)),
        (static_array_3 1 1 x), (static_array_3 1 1 y).
      rewrite !(ooplace_op_total junk Times U64.mul) by reflexivity.
      repeat split; reflexivity.
  - destruct (wf_2 a Ha) as (x0 & x1 & ->), (wf_2 b Hb) as (y0 & y1 & ->).
    split.
    + exists (static_array_2 (U64.add x0 y0) (U64.add x1 y1)),
        (static_array_3 0 (U64.add x0 y0) (U64.add x1 y1)),
        (static_array_3 0 x0 x1), (static_array_3 0 y0 y1).
      rewrite !(ooplace_op_total junk Plus U64.add) by reflexivity.
      repeat split; reflexivity.
    + exists (static_array_2 (U64.mul x0 y0) (U64.mul x1 y1)),
        (static_array_3 1 (U64.mul x0 y0) (U64.mul x1 y1)),
        (static_array_3 1 x0 x1), (static_array_3 1 y0 y1).
      rewrite !(ooplace_op_total junk Times U64.mul) by reflexivity.
      repeat split; reflexivity.
  - destruct (wf_3 a Ha) as (x0 & x1 & x2 & ->),
      (wf_3 b Hb) as (y0 & y1 & y2 & ->). split.
    + eexists _, _, _, _.
      rewrite !(ooplace_op_total junk Plus U64.add) by reflexivity.
      repeat split; reflexivity.
    + eexists _, _, _, _.
      rewrite !(ooplace_op_total junk Times U64.mul) by reflexivity.
      repeat split; reflexivity.
Qed.

Lemma embed_respects_operators_witness :
  exists s es ea eb,
    ooplace_op (fun _ => 0) Plus (static_array_2 4 5) (static_array_2 10 20)
      = Some s /\
    embed_in_id3 s = Some es /\
    embed_in_id3 (static_array_2 4 5) = Some ea /\
    embed_in_id3 (static_array_2 10 20) = Some eb /\
    ooplace_op (fun _ => 0) Plus ea eb = Some es.
Proof.
  refine (proj1 (embed_respects_operators (fun _ => 0) 2
                   (static_array_2 4 5) (static_array_2 10 20) _ _ _));
    [right; left; reflexivity | wf_concrete | wf_concrete].
Defined.

(** X25. The padding keeps an index inside its range: for [Dim] in
    [{1, 2, 3}], every component of [idx] is below the same component of
    [r] if and only if every component of [embed_in_id3(idx)] is below the
    same component of [embed_in_range3(r)]. *)
Theorem embed_preserves_bounds (Dim : nat) (idx r : static_array Dim) :
  dim123 Dim -> wf idx -> wf r ->
  exists i3 r3, embed_in_id3 idx = Some i3 /\
    embed_in_range3 r = Some r3 /\
    (in_bounds idx r <-> in_bounds i3 r3).
Proof.
  intros [-> | [-> | ->]] Hi Hr.
  - destruct (wf_1 idx Hi) as (x & ->), (wf_1 r Hr) as (y & ->).
    exists (static_array_3 0 0 x), (static_array_3 1 1 y).
    split; [reflexivity |]. split; [reflexivity |].
    unfold in_bounds. simpl. rewrite !Forall2_cons. intuition lia.
  - destruct (wf_2 idx Hi) as (x0 & x1 & ->), (wf_2 r Hr) as (y0 & y1 & ->).
    exists (static_array_3 0 x0 x1), (static_array_3 1 y0 y1).
    split; [reflexivity |]. split; [reflexivity |].
    unfold in_bounds. simpl. rewrite !Forall2_cons. intuition lia.
  - exists idx, r. split; [reflexivity |]. split; [reflexivity |].
    reflexivity.
Qed.

Lemma embed_preserves_bounds_witness :
  exists i3 r3, embed_in_id3 (static_array_2 4 5) = Some i3 /\
    embed_in_range3 (static_array_2 8 8) = Some r3 /\ in_bounds i3 r3.
Proof.
  destruct (embed_preserves_bounds 2 (static_array_2 4 5) (static_array_2 8 8))
    as (i3 & r3 & Hi & Hr & Hiff);
    [right; left; reflexivity | wf_concrete | wf_concrete |].
  exists i3, r3. split; [exact Hi |]. split; [exact Hr |].
  apply Hiff. unfold in_bounds. simpl. repeat constructor.
Defined.

(** X26. Embedding is injective: for [Dim] in [{1, 2, 3}], two vectors with
    the same [embed_in_id3] result, or the same [embed_in_range3] result,
    are equal. *)
Theorem embed_injective (Dim : nat) (a b : static_array Dim) :
  dim123 Dim -> wf a -> wf b ->
  (embed_in_id3 a = embed_in_id3 b -> a = b) /\
  (embed_in_range3 a = embed_in_range3 b -> a = b).
Proof.
  intros [-> | [-> | ->]] Ha Hb.
  - destruct (wf_1 a Ha) as (x & ->), (wf_1 b Hb) as (y & ->).
    split; intros [= ->]; reflexivity.
  - destruct (wf_2 a Ha) as (x0 & x1 & ->), (wf_2 b Hb) as (y0 & y1 & ->).
    split; intros [= -> ->]; reflexivity.
  - split; intros [= ->]; reflexivity.
Qed.

Lemma embed_injective_witness :
  embed_in_range3 (static_array_2 4 5) = embed_in_range3 (static_array_2 4 5) /\
  static_array_2 4 5 = static_array_2 4 5.
Proof.
  assert (He : embed_in_range3 (static_array_2 4 5)
               = embed_in_range3 (static_array_2 4 5)) by reflexivity.
  split; [exact He |].
  refine (proj2 (embed_injective 2 (static_array_2 4 5) (static_array_2 4 5)
                   _ _ _) He);
    [right; left; reflexivity | wf_concrete | wf_concrete].
Defined.

(** * Mutable indexing *)

(** X27. Writing through [operator[]] is defined exactly for an index in
    [[0, Dim)]; afterwards [operator[]] and [get] read the written value at
    that index, every other index reads as before, and the vector still
    has [Dim] components. *)
Theorem op_index_assign_read (Dim : nat) (a : static_array Dim) (i v : Z) :
  wf a ->
  (is_Some (op_index_assign a i v) <-> 0 <= i < Z.of_nat Dim) /\
  forall a', op_index_assign a i v = Some a' ->
    length (_data a') = Dim /\
    op_index a' i = Some v /\ get a' i = Some v /\
    forall j, j <> i -> op_index a' j = op_index a j.
Proof.
  intros [Ha _]. unfold op_index_assign, array_write, get, array_read.
  destruct (Z.ltb_spec i 0) as [Hneg | Hnn].
  - split; [| discriminate].
    split; [intros [? ?]; discriminate | lia].
  - destruct (decide (Z.to_nat i < length (_data a))%nat) as [Hlt | Hge];
      simpl.
    + split; [split; [lia | eauto] |].
      intros a' [= <-]. simpl. rewrite length_insert.
      split; [exact Ha |].
      rewrite op_index_lookup by lia. simpl.
      destruct (Z.ltb_spec i 0); [lia |].
      rewrite list_lookup_insert_eq by exact Hlt.
      split; [reflexivity |]. split; [reflexivity |].
      intros j Hj. unfold op_index, array_read. simpl.
      destruct (Z.ltb_spec j 0); [reflexivity |].
      apply list_lookup_insert_ne. lia.
    + split; [| discriminate].
      split; [intros [? ?]; discriminate | lia].
Qed.

Lemma op_index_assign_read_witness :
  exists a', op_index_assign (static_array_3 7 8 9) 1 42 = Some a' /\
    op_index a' 1 = Some 42 /\ op_index a' 2 = Some 9.
Proof.
  assert (Hw : wf (static_array_3 7 8 9)) by wf_concrete.
  destruct (op_index_assign_read 3 (static_array_3 7 8 9) 1 42 Hw)
    as [Hdef Hread].
  destruct (proj2 Hdef ltac:(simpl; lia)) as [a' Ha'].
  exists a'. split; [exact Ha' |].
  destruct (Hread a' Ha') as (_ & Hr & _ & Hother).
  split; [exact Hr |]. rewrite (Hother 2) by lia. reflexivity.
Defined.
